(** * tsdav-utils: [updateFields] over a model of the ical.js component tree

    The repository has one operation, [updateFields] (src/updateFields.ts).
    It reads the record text out of its argument, hands it to ical.js,
    picks the component to change, upserts every entry of the field map on
    it and serialises the whole tree again.

    Layout of this development:
    - [JS]      the JavaScript values the function looks at (truthiness,
                property lookup on objects held in a heap);
    - [Outcome] completion records: a call returns a value or throws an
                [Error] with a message;
    - [ICAL]    the jCal tree behind [ICAL.Component] and the methods the
                function calls on it; the text grammar, the typed values
                and [String.prototype.toLowerCase] are left to an
                [Engine];
    - [M]       the heap-passing monad of the function, with [throw] and
                [tryCatch];
    - [updateFields] itself;
    - [RefEngine] a small line-oriented engine used to run the function on
                concrete records;
    - the properties. *)

From Stdlib Require Import String Ascii NArith Bool.
From stdpp Require Import base option list gmap strings.

Open Scope string_scope.

(** ** JavaScript values *)

Module JS.

(** Objects live in a heap and are passed by reference. *)
Definition loc := positive.

(** The values a field of the wrapper object can hold.  Numbers are kept
    to the integers, which is all truthiness needs apart from [NaN]. *)
Inductive Value :=
| Undefined
| Null
| Bool (b : bool)
| Number (n : Z)
| Str (s : string)
| Ref (l : loc).

(** An object: its own properties. *)
Abbreviation Object := (gmap string Value).
Abbreviation Heap := (gmap loc (gmap string Value)).

(** [ToBoolean]: what [!x] negates. *)
Definition truthy (v : Value) : bool :=
  match v with
  | Undefined | Null => false
  | Bool b => b
  | Number n => negb (n =? 0)%Z
  | Str s => negb (String.eqb s "")
  | Ref _ => true
  end.

(** [o.k]: a property that is not there reads as [undefined]. *)
Definition get (o : gmap string Value) (k : string) : Value :=
  default Undefined (o !! k).

End JS.

(** ** Completion records *)

(** A call either returns or throws [new Error(message)]. *)
Inductive Outcome (A : Type) :=
| Return (a : A)
| Throw (message : string).
Arguments Return {A} & a.
Arguments Throw {A} message.

Module Outcome.

Definition bind {A B} (m : Outcome A) (k : A -> Outcome B) : Outcome B :=
  match m with
  | Return a => k a
  | Throw msg => Throw msg
  end.

Definition map {A B} (f : A -> B) (m : Outcome A) : Outcome B :=
  bind m (fun a => Return (f a)).

End Outcome.

#[export] Instance Outcome_ret : MRet Outcome := fun _ a => Return a.
#[export] Instance Outcome_bind : MBind Outcome := fun _ _ k m => Outcome.bind m k.

(** ** The component tree of ical.js *)

Module ICAL.

(** A jCal property, [[name, params, type, value, ...]]. *)
Record Property := mkProperty {
  pname : string;
  pparams : list (string * string);
  ptype : string;
  pvalues : list JS.Value
}.

(** A jCal component, [[name, properties, components]]. *)
Inductive Component := mkComponent {
  cname : string;
  cprops : list Property;
  csubs : list Component
}.

(** What [ICAL.parse] returns: the jCal of the component, for a text
    with exactly one top-level component; for any other text that it
    reads to the end, the array of what it found at the top level, which
    is the jCal of no component. *)
Inductive JCal :=
| Single (component : Component)
| Array (roots : list Component).

Coercion Single : Component >-> JCal.

(** What the function takes from its platform and is not written out
    here: the text grammar of ical.js in both directions, the design
    set's default value type of a property name, the decoration of a
    value, which throws on a value it cannot read (README: "ical.js may
    throw later"), the lowercasing of a string, which follows the
    Unicode case tables, and the message of the error the library ends
    in when it is made to work on an array of top-level components.  The
    theorems hold for every choice of the six. *)
Record Engine := mkEngine {
  (** [ICAL.parse(input)] *)
  parse : JS.Value -> Outcome JCal;
  (** [component.toString()] *)
  stringify : Component -> string;
  (** [property.getDefaultType()] *)
  defaultType : string -> string;
  (** [designSet.value[type].decorate(value, property)], kept for its
      exception; the property is passed as it is when the call is made,
      the new value already in it *)
  decorate : Property -> string -> Outcome unit;
  (** [String.prototype.toLowerCase] *)
  toLowerCase : string -> string;
  (** the message of the error thrown by the calls of steps 4 and 5 on a
      [Component] built over an array of top-level components, given
      the array and the entries with their keys lowercased *)
  arrayError : list Component -> list (string * string) -> string
}.

(** A [Component] object wraps a node of the one jCal array built by the
    parser: the root, or the [i]th entry of the root's component list
    ([_hydrateComponent(i)]).  Writing through it writes the root's
    tree. *)
Inductive ComponentRef :=
| Root
| Sub (i : nat).

Definition deref (root : Component) (r : ComponentRef) : option Component :=
  match r with
  | Root => Some root
  | Sub i => csubs root !! i
  end.

Definition store (root : Component) (r : ComponentRef) (c : Component) : Component :=
  match r with
  | Root => c
  | Sub i => mkComponent (cname root) (cprops root) (<[i := c]> (csubs root))
  end.

(** [getFirstSubcomponent(name)]: the first entry of the component list
    whose name is [name], or [null].  The function calls it with the
    three literals only, so the library's branch for an empty name is
    never taken. *)
Definition getFirstSubcomponent (c : Component) (name : string) : option ComponentRef :=
  (fun ix => Sub ix.1) <$> list_find (fun s => cname s = name) (csubs c).

(** [getFirstProperty(name)]: index and jCal of the first property with
    that name, or [null].  The library tests [if (name)]: for the empty
    string it takes the other branch and hands out the first property
    of the list, whatever its name, or [null] when the list is empty. *)
Definition getFirstProperty (c : Component) (name : string) : option (nat * Property) :=
  if String.eqb name "" then (fun p => (0, p)) <$> head (cprops c)
  else list_find (fun p => pname p = name) (cprops c).

Section Methods.
Variable E : Engine.

(** [property.setValue(value)] with a string: every value is removed,
    the string becomes the only one, name, parameters and type stay;
    a decorated type then reads the string and may throw. *)
Definition setValue (p : Property) (value : string) : Outcome Property :=
  let p' := mkProperty (pname p) (pparams p) (ptype p) [JS.Str value] in
  _ ← decorate E p' value;
  mret p'.

(** [new ICAL.Property(name)]: no parameters, the default type. *)
Definition newProperty (name : string) : Property :=
  mkProperty name [] (defaultType E name) [].

(** [addPropertyWithValue(name, value)]: the new property is pushed
    at the end of the property list. *)
Definition addPropertyWithValue (c : Component) (name value : string) : Outcome Component :=
  p ← setValue (newProperty name) value;
  mret (mkComponent (cname c) (cprops c ++ [p]) (csubs c)).

(** [updatePropertyWithValue(name, value)] *)
Definition updatePropertyWithValue (c : Component) (name value : string) : Outcome Component :=
  match getFirstProperty c name with
  | Some (i, prop) =>
      p ← setValue prop value;
      mret (mkComponent (cname c) (<[i := p]> (cprops c)) (csubs c))
  | None => addPropertyWithValue c name value
  end.

(** The same call made on a wrapper: the node is read through the
    reference and the result is written back into the root's tree.
    A reference handed out by [getFirstSubcomponent] always points
    at a node (see [getFirstSubcomponent_deref]). *)
Definition updateThrough (root : Component) (r : ComponentRef) (name value : string)
  : Outcome Component :=
  match deref root r with
  | Some c => c' ← updatePropertyWithValue c name value; mret (store root r c')
  | None => mret root
  end.

End Methods.

End ICAL.

(** ** Calls that read the caller's heap *)

(** [updateFields] runs against the heap that holds the caller's objects.
    A call returns or throws, and leaves a heap behind in both cases. *)
Definition M (A : Type) : Type := JS.Heap -> Outcome A * JS.Heap.

Module M.

Definition ret {A} (a : A) : M A := fun h => (Return a, h).

Definition bind {A B} (m : M A) (k : A -> M B) : M B :=
  fun h =>
    match m h with
    | (Return a, h') => k a h'
    | (Throw msg, h') => (Throw msg, h')
    end.

(** [throw new Error(message)] *)
Definition throw {A} (message : string) : M A := fun h => (Throw message, h).

(** [try { body } catch (error) { handler(error.message) }] *)
Definition tryCatch {A} (body : M A) (handler : string -> M A) : M A :=
  fun h =>
    match body h with
    | (Return a, h') => (Return a, h')
    | (Throw msg, h') => handler msg h'
    end.

(** A call into the library, which works on its own data. *)
Definition lift {A} (o : Outcome A) : M A := fun h => (o, h).

(** [o.k] for the object at [l]. *)
Definition getProp (l : JS.loc) (k : string) : M JS.Value :=
  fun h => (Return (JS.get (default ∅ (h !! l)) k), h).

(** A call that leaves the heap as it found it. *)
Definition readOnly {A} (m : M A) : Prop := forall h, (m h).2 = h.

End M.

#[export] Instance M_ret : MRet M := @M.ret.
#[export] Instance M_bind : MBind M := fun _ _ k m => M.bind m k.

(** ** src/types.ts *)

(** [CalendarObjectInput = string | { data: string; [key: string]: any }]:
    the iCal text itself, or a reference to an object.  The tests cast an
    object without [data] to this type, so the field is read as any
    value. *)
Inductive CalendarObjectInput :=
| RawText (s : string)
| Wrapper (l : JS.loc).

(** [FieldUpdates = { [key: string]: string }], as [Object.entries] lists
    it: the own keys, each once, in enumeration order. *)
Definition FieldUpdates := list (string * string).

(** ** src/updateFields.ts *)

Import ICAL.

Definition dquote : string := String (ascii_of_N 34) EmptyString.

(** The three messages the function throws. *)
Definition invalidInputMessage : string :=
  "Invalid input: calendarObject must be a string or object with "
  ++ dquote ++ "data" ++ dquote ++ " field".

Definition parseFailurePrefix : string := "Failed to parse iCal data: ".

Definition noComponentMessage : string :=
  "No VEVENT, VTODO, or VJOURNAL found in VCALENDAR".

(** [a || b] on object-or-null operands. *)
Definition orElse {A} (a b : option A) : option A :=
  match a with
  | Some x => Some x
  | None => b
  end.
Infix "|||" := orElse (at level 50, left associativity).

(** The field map as the loop passes it on: every key lowercased. *)
Definition lowered (E : Engine) (fields : FieldUpdates) : FieldUpdates :=
  (fun kv => (toLowerCase E kv.1, kv.2)) <$> fields.

Section UpdateFields.
Variable E : Engine.

(** Step 1: the value named [icalString]. *)
Definition icalString (calendarObject : CalendarObjectInput) : M JS.Value :=
  match calendarObject with
  | RawText s => mret (JS.Str s)
  | Wrapper l => M.getProp l "data"
  end.

(** Step 3: the component the loop writes to. *)
Definition actualComponent (component : Component) : Outcome ComponentRef :=
  if String.eqb (cname component) "vcalendar" then
    match getFirstSubcomponent component "vevent"
          ||| getFirstSubcomponent component "vtodo"
          ||| getFirstSubcomponent component "vjournal" with
    | Some r => Return r
    | None => Throw noComponentMessage
    end
  else Return Root.

(** Step 4: [for (const [key, value] of Object.entries(fields))].  Every
    call writes into the tree of [component]. *)
Fixpoint forEntries (entries : FieldUpdates) (target : ComponentRef) (component : Component)
  : Outcome Component :=
  match entries with
  | [] => mret component
  | (key, value) :: rest =>
      component' ← updateThrough E component target (toLowerCase E key) value;
      forEntries rest target component'
  end.

(** The function.  [new ICAL.Component(jCal)] takes what the parser
    returned as it is.  Over the jCal of a component the steps are as
    written.  Over an array the [name] of the object is no string, so
    the object is its own target; the upserts of step 4 go to whatever
    stands in the array, and the [toString] of step 5 throws a
    [TypeError], unless a call of step 4 has thrown before: the call
    throws, outside the [try] block, with a message of the library's. *)
Definition updateFields (calendarObject : CalendarObjectInput) (fields : FieldUpdates)
  : M string :=
  icalString ← icalString calendarObject;
  if negb (JS.truthy icalString) then M.throw invalidInputMessage else
  jCal ← M.tryCatch (M.lift (parse E icalString))
                    (fun message => M.throw (parseFailurePrefix ++ message));
  match jCal with
  | Single component =>
      target ← M.lift (actualComponent component);
      component' ← M.lift (forEntries fields target component);
      mret (stringify E component')
  | Array roots => M.throw (arrayError E roots (lowered E fields))
  end.

End UpdateFields.

(** ** A reference engine

    A small engine for the line grammar of iCalendar and vCard:
    [BEGIN:name], [END:name] and [NAME;param=value:VALUE] lines, names
    lowercased on the way in and uppercased on the way out as ical.js
    does.  Of the typed values it has the date-time, converted between
    the iCalendar and the jCal form by position as the library does; it
    has no line folding and no escaping, and it lowercases the letters
    [A] to [Z] only.  The function is run on it in the examples, on ASCII
    records and keys; the general theorems hold for every [Engine]. *)

Module RefEngine.

Definition CR : ascii := ascii_of_N 13.
Definition LF : ascii := ascii_of_N 10.
Definition CRLF : string := String CR (String LF EmptyString).

(** Lowercasing on the ASCII range: the letters [A]..[Z] are mapped to
    [a]..[z], every other code is left alone. *)
Definition lowerChar (c : ascii) : ascii :=
  let n := N_of_ascii c in
  if ((65 <=? n) && (n <=? 90))%N then ascii_of_N (n + 32) else c.

Fixpoint lowerAscii (s : string) : string :=
  match s with
  | EmptyString => EmptyString
  | String c s' => String (lowerChar c) (lowerAscii s')
  end.

Definition upperChar (c : ascii) : ascii :=
  let n := N_of_ascii c in
  if ((97 <=? n) && (n <=? 122))%N then ascii_of_N (n - 32) else c.

Fixpoint toUpperCase (s : string) : string :=
  match s with
  | EmptyString => EmptyString
  | String c s' => String (upperChar c) (toUpperCase s')
  end.

(** The pieces of [s] between occurrences of [sep]. *)
Fixpoint split (sep : ascii) (s : string) : list string :=
  match s with
  | EmptyString => [EmptyString]
  | String c s' =>
      if Ascii.eqb c sep then EmptyString :: split sep s'
      else match split sep s' with
           | piece :: pieces => String c piece :: pieces
           | [] => [String c EmptyString]
           end
  end.

(** [s] cut at the first [sep], if there is one. *)
Fixpoint cut (sep : ascii) (s : string) : option (string * string) :=
  match s with
  | EmptyString => None
  | String c s' =>
      if Ascii.eqb c sep then Some (EmptyString, s')
      else (fun xy => (String c xy.1, xy.2)) <$> cut sep s'
  end.

Fixpoint dropCR (s : string) : string :=
  match s with
  | EmptyString => EmptyString
  | String c s' => if Ascii.eqb c CR then dropCR s' else String c (dropCR s')
  end.

Definition defaultType (name : string) : string :=
  if existsb (String.eqb name) ["dtstart"; "dtend"; "dtstamp"; "due"; "created"; "last-modified"]
  then "date-time"
  else if existsb (String.eqb name) ["priority"; "sequence"] then "integer"
  else if String.prefix "x-" name then "unknown"
  else "text".

(** [Time.fromDateTimeString] refuses a string shorter than the jCal
    form [YYYY-MM-DDTHH:MM:SS]. *)
Definition decorate (p : Property) (value : string) : Outcome unit :=
  if String.eqb (ptype p) "date-time" && (String.length value <? 19)%nat
  then Throw ("invalid date-time value: " ++ value)
  else Return tt.

(** [s.slice(from, to)] for [from <= to]. *)
Definition slice (from to : nat) (s : string) : string :=
  String.substring from (to - from) s.

(** [s[i] === 'Z'] *)
Definition isZ (i : nat) (s : string) : bool :=
  match String.get i s with
  | Some c => Ascii.eqb c "Z"
  | None => false
  end.

(** The date-time of the design set: [20120901T130000] on the iCalendar
    side is [2012-09-01T13:00:00] on the jCal side.  Both directions cut
    the text by position and do not look at what they cut. *)
Definition fromICAL (type value : string) : string :=
  if String.eqb type "date-time" then
    slice 0 4 value ++ "-" ++ slice 4 6 value ++ "-" ++ slice 6 8 value
    ++ "T" ++ slice 9 11 value ++ ":" ++ slice 11 13 value ++ ":" ++ slice 13 15 value
    ++ (if isZ 15 value then "Z" else "")
  else value.

Definition toICAL (type value : string) : string :=
  if String.eqb type "date-time" && (19 <=? String.length value)%nat then
    slice 0 4 value ++ slice 5 7 value ++ slice 8 13 value
    ++ slice 14 16 value ++ slice 17 19 value
    ++ (if isZ 19 value then "Z" else "")
  else value.

Definition parameter (piece : string) : string * string :=
  match cut "=" piece with
  | Some (k, v) => (lowerAscii k, v)
  | None => (lowerAscii piece, "")
  end.

(** A content line: lowercased name, parameters, value. *)
Definition contentLine (line : string) : option (string * list (string * string) * string) :=
  match cut ":" line with
  | None => None
  | Some (head, value) =>
      match split ";" head with
      | name :: params => Some (lowerAscii name, parameter <$> params, value)
      | [] => None
      end
  end.

(** A component that has begun and not ended; both lists grow at the
    front. *)
Record Frame := mkFrame {
  fname : string;
  fprops : list Property;
  fsubs : list Component
}.

Definition close (f : Frame) : Component :=
  mkComponent (fname f) (rev (fprops f)) (rev (fsubs f)).

Fixpoint handleLines (lines : list string) (stack : list Frame) (roots : list Component)
  : Outcome (list Component) :=
  match lines with
  | [] =>
      match stack with
      | [] => Return (rev roots)
      | _ :: _ => Throw "invalid ical body. component began but did not end"
      end
  | line :: rest =>
      if String.eqb line "" then handleLines rest stack roots else
      match contentLine line with
      | None => Throw ("invalid line (no token ; or :) " ++ line)
      | Some (name, params, value) =>
          if String.eqb name "begin" then
            handleLines rest (mkFrame (lowerAscii value) [] [] :: stack) roots
          else if String.eqb name "end" then
            match stack with
            | [] => Throw "invalid ical body. component ended but did not begin"
            | f :: [] => handleLines rest [] (close f :: roots)
            | f :: g :: stack' =>
                handleLines rest (mkFrame (fname g) (fprops g) (close f :: fsubs g) :: stack') roots
            end
          else
            match stack with
            | [] => Throw "invalid ical body. property outside of a component"
            | f :: stack' =>
                let type := defaultType name in
                let p := mkProperty name params type [JS.Str (fromICAL type value)] in
                handleLines rest (mkFrame (fname f) (p :: fprops f) (fsubs f) :: stack') roots
            end
      end
  end.

Definition parse (input : JS.Value) : Outcome JCal :=
  match input with
  | JS.Str text =>
      roots ← handleLines (split LF (dropCR text)) [] [];
      match roots with
      | [root] => Return (Single root)
      | _ => Return (Array roots)
      end
  | _ => Throw "buffer.search is not a function"
  end.

Definition valueText (v : JS.Value) : string :=
  match v with JS.Str s => s | _ => "" end.

Definition parameterText (kv : string * string) : string :=
  ";" ++ toUpperCase kv.1 ++ "=" ++ kv.2.

Definition propertyText (p : Property) : string :=
  toUpperCase (pname p) ++ String.concat "" (parameterText <$> pparams p)
  ++ ":" ++ String.concat "," ((fun v => toICAL (ptype p) (valueText v)) <$> pvalues p).

Fixpoint stringify (c : Component) : string :=
  match c with
  | mkComponent name props subs =>
      "BEGIN:" ++ toUpperCase name ++ CRLF
      ++ String.concat "" ((fun p => propertyText p ++ CRLF) <$> props)
      ++ (fix each (l : list Component) : string :=
            match l with
            | [] => ""
            | s :: l' => stringify s ++ CRLF ++ each l'
            end) subs
      ++ "END:" ++ toUpperCase name
  end.

(** The first error of the upserts made on a [Component] built over an
    array: each makes a property of its own, named by the key, or, for
    the empty key and for a key that is the first letter of the second
    root's name, by that name, and sets the value on it. *)
Fixpoint arrayLoop (second : string) (fields : list (string * string)) : option string :=
  match fields with
  | [] => None
  | (name, value) :: rest =>
      let name' :=
        if String.eqb name "" || String.eqb name (slice 0 1 second) then second else name in
      match decorate (mkProperty name' [] (defaultType name') [JS.Str value]) value with
      | Throw message => Some message
      | Return _ => arrayLoop second rest
      end
  end.

Definition arrayError (roots : list Component) (fields : list (string * string)) : string :=
  match roots with
  | _ :: second :: _ =>
      default "component[0].toUpperCase is not a function" (arrayLoop (cname second) fields)
  | _ =>
      match fields with
      | [] => "Cannot read properties of undefined (reading 'toUpperCase')"
      | _ :: _ => "Cannot read properties of undefined (reading 'length')"
      end
  end.

Definition engine : Engine :=
  mkEngine parse stringify defaultType decorate lowerAscii arrayError.

(** Text from lines. *)
Definition text (lines : list string) : string := String.concat CRLF lines.

End RefEngine.

(** ** Sample records *)

Module Samples.

Definition vevent : string :=
  RefEngine.text
    ["BEGIN:VCALENDAR"; "VERSION:2.0"; "PRODID:-//Test//Test//EN";
     "BEGIN:VEVENT"; "UID:test-event-123"; "DTSTART:20250128T100000Z";
     "SUMMARY:Original"; "LOCATION:Office"; "END:VEVENT";
     "END:VCALENDAR"].

(** The same with a start that is not in the iCalendar form; the parser
    takes it as it takes any text. *)
Definition extended : string :=
  RefEngine.text
    ["BEGIN:VCALENDAR"; "VERSION:2.0"; "PRODID:-//Test//Test//EN";
     "BEGIN:VEVENT"; "UID:test-event-123"; "DTSTART:2025-01-28T10:00:00Z";
     "SUMMARY:Original"; "LOCATION:Office"; "END:VEVENT";
     "END:VCALENDAR"].

Definition vcard : string :=
  RefEngine.text
    ["BEGIN:VCARD"; "VERSION:3.0"; "FN:John Doe"; "EMAIL:john@example.com"; "END:VCARD"].

(** A calendar with a task ahead of two events, and a time zone. *)
Definition mixed : string :=
  RefEngine.text
    ["BEGIN:VCALENDAR"; "VERSION:2.0";
     "BEGIN:VTIMEZONE"; "TZID:Europe/Berlin"; "END:VTIMEZONE";
     "BEGIN:VTODO"; "SUMMARY:Task"; "END:VTODO";
     "BEGIN:VEVENT"; "SUMMARY:First"; "END:VEVENT";
     "BEGIN:VEVENT"; "SUMMARY:Second"; "END:VEVENT";
     "END:VCALENDAR"].

(** A calendar that holds a time zone and nothing else. *)
Definition zoneOnly : string :=
  RefEngine.text
    ["BEGIN:VCALENDAR"; "VERSION:2.0";
     "BEGIN:VTIMEZONE"; "TZID:Europe/Berlin"; "END:VTIMEZONE";
     "END:VCALENDAR"].

Definition notARecord : string := "NOT A VALID RECORD".

(** A heap with the object [{ data: vevent, etag: 'abc123', url: ... }]
    at 1, the same text under another etag and url at 2,
    [{ url: 'test.ics' }] at 3 and [{ data: 42 }] at 4. *)
Definition heap : JS.Heap :=
  {[ 1%positive := {[ "data" := JS.Str vevent; "etag" := JS.Str "abc123";
                      "url" := JS.Str "https://example.com/calendar/event.ics" ]};
     2%positive := {[ "data" := JS.Str vevent; "etag" := JS.Str "def456";
                      "url" := JS.Str "https://example.org/other.ics" ]};
     3%positive := {[ "url" := JS.Str "test.ics" ]};
     4%positive := {[ "data" := JS.Number 42 ]} ]}.

(** Field maps: two spellings of one name, and the same with a new name. *)
Definition colliding : FieldUpdates := [("SUMMARY", "a"); ("summary", "b")].

Definition collidingAndNew : FieldUpdates :=
  [("SUMMARY", "a"); ("summary", "b"); ("X-NEW", "c")].

(** Two contacts in one text. *)
Definition twoContacts : string :=
  RefEngine.text
    ["BEGIN:VCARD"; "VERSION:3.0"; "FN:John Doe"; "END:VCARD";
     "BEGIN:VCARD"; "VERSION:3.0"; "FN:Jane Doe"; "END:VCARD"].

(** Field maps with the empty string as a key. *)
Definition emptyKey : FieldUpdates := [("", "v")].


End Samples.


(** ** Vocabulary of the properties *)

(** What [updateFields] reads from its first argument. *)
Definition inputValue (h : JS.Heap) (calendarObject : CalendarObjectInput) : JS.Value :=
  match calendarObject with
  | RawText s => JS.Str s
  | Wrapper l => JS.get (default ∅ (h !! l)) "data"
  end.

(** The lowercased keys, in enumeration order: the names the loop hands
    to the upsert. *)
Definition loweredKeys (E : Engine) (fields : FieldUpdates) : list string :=
  (λ kv, toLowerCase E kv.1) <$> fields.

(** [name] is a key of the field map, letter case aside. *)
Definition isKey (E : Engine) (fields : FieldUpdates) (name : string) : Prop :=
  toLowerCase E name ∈ loweredKeys E fields.

#[export] Instance isKey_dec E fields name : Decision (isKey E fields name).
Proof. unfold isKey. apply _. Defined.




(** The properties of a list with a given name, in their order. *)
Definition named (name : string) (props : list Property) : list Property :=
  filter (fun p => pname p = name) props.

(** The [i]th sub-component is the first one of type [name]. *)
Definition firstOfType (name : string) (subs : list Component) (i : nat) : Prop :=
  (∃ s, subs !! i = Some s ∧ cname s = name)
  ∧ ∀ j s, j < i → subs !! j = Some s → cname s ≠ name.

Definition noneOfType (name : string) (subs : list Component) : Prop :=
  ∀ s, s ∈ subs → cname s ≠ name.


(** The loop of step 4 seen from the node it writes to. *)
Fixpoint upsertAll (E : Engine) (entries : FieldUpdates) (c : Component) : Outcome Component :=
  match entries with
  | [] => Return c
  | (key, value) :: rest =>
      c' ← updatePropertyWithValue E c (toLowerCase E key) value;
      upsertAll E rest c'
  end.

(** The property an upsert leaves behind when it replaces [p]. *)
Definition replaced (p : Property) (value : string) : Property :=
  mkProperty (pname p) (pparams p) (ptype p) [JS.Str value].

(** The property an upsert creates. *)
Definition created (E : Engine) (name value : string) : Property :=
  mkProperty name [] (defaultType E name) [JS.Str value].

(** The engine reads every value handed to it. *)
Definition acceptsAll (E : Engine) : Prop :=
  ∀ p value, decorate E p value = Return tt.

(** What a call yields once the value of [icalString] is known. *)
Definition outcomeOn (E : Engine) (v : JS.Value) (fields : FieldUpdates) : Outcome string :=
  if JS.truthy v then
    match parse E v with
    | Return (Single component) =>
        target ← actualComponent component;
        component' ← forEntries E fields target component;
        mret (stringify E component')
    | Return (Array roots) => Throw (arrayError E roots (lowered E fields))
    | Throw message => Throw (parseFailurePrefix ++ message)
    end
  else Throw invalidInputMessage.

(** The text of a record as the spec words the rejected inputs: the raw
    record is the empty string, or the wrapper's [data] is absent, empty,
    or not a string. *)
Definition specRejected (h : JS.Heap) (calendarObject : CalendarObjectInput) : Prop :=
  match calendarObject with
  | RawText s => s = ""
  | Wrapper l =>
      match default ∅ (h !! l) !! "data" with
      | None => True
      | Some (JS.Str s) => s = ""
      | Some _ => True
      end
  end.

(** A record the function can work on: the value read from the argument
    is truthy, the engine parses it to [tree], and step 3 finds the target
    [r], which is the node [node] of the tree. *)
Definition validRecord (E : Engine) (v : JS.Value) (tree : Component)
    (r : ComponentRef) (node : Component) : Prop :=
  JS.truthy v = true
  ∧ parse E v = Return tree
  ∧ actualComponent tree = Return r
  ∧ deref tree r = Some node.

(** Step 3 picked the [i]th sub-component and the call is the loop run on
    that node, written back at [i], and the tree serialised. *)
Definition selects (E : Engine) (tree : Component) (fields : FieldUpdates)
    (result : Outcome string) (i : nat) : Prop :=
  actualComponent tree = Return (Sub i)
  ∧ ∃ node, csubs tree !! i = Some node
      ∧ result = Outcome.map
                   (λ node', stringify E
                      (mkComponent (cname tree) (cprops tree) (<[i := node']> (csubs tree))))
                   (upsertAll E fields node).

(** The inputs the guard of step 1 turns away. *)
Definition rejected (h : JS.Heap) (calendarObject : CalendarObjectInput) : Prop :=
  match calendarObject with
  | RawText s => s = ""
  | Wrapper l =>
      match default ∅ (h !! l) !! "data" with
      | None => True
      | Some v => v = JS.Undefined ∨ v = JS.Null ∨ v = JS.Bool false
                  ∨ v = JS.Number 0 ∨ v = JS.Str ""
      end
  end.

(** The engine never throws the text of the function's own input error. *)
Definition keepsApart (E : Engine) : Prop :=
  (∀ p value, decorate E p value ≠ Throw invalidInputMessage)
  ∧ ∀ roots entries, arrayError E roots entries ≠ invalidInputMessage.

(** The sample records as the reference engine reads them. *)
Module Parsed.

Definition orEmpty (o : Outcome Component) : Component :=
  match o with Return c => c | Throw _ => mkComponent "" [] [] end.

(** What the parser returned, when it is the jCal of one component. *)
Definition single (o : Outcome JCal) : Outcome Component :=
  match o with
  | Return (Single c) => Return c
  | Return (Array _) => Throw "array"
  | Throw message => Throw message
  end.

Definition vevent : Component :=
  Eval vm_compute in orEmpty (single (RefEngine.parse (JS.Str Samples.vevent))).

Definition vcard : Component :=
  Eval vm_compute in orEmpty (single (RefEngine.parse (JS.Str Samples.vcard))).

Definition mixed : Component :=
  Eval vm_compute in orEmpty (single (RefEngine.parse (JS.Str Samples.mixed))).

Definition zoneOnly : Component :=
  Eval vm_compute in orEmpty (single (RefEngine.parse (JS.Str Samples.zoneOnly))).

Definition extended : Component :=
  Eval vm_compute in orEmpty (single (RefEngine.parse (JS.Str Samples.extended))).

(** The event of [Samples.vevent] and the first event of [Samples.mixed]. *)
Definition event : Component :=
  Eval vm_compute in default (mkComponent "" [] []) (csubs vevent !! 0).

Definition firstEvent : Component :=
  Eval vm_compute in default (mkComponent "" [] []) (csubs mixed !! 2).

End Parsed.

(** The property an upsert of [name] with [value] writes on [c]: the
    first property of that name with the value in it, or the new
    property. *)
Definition written (E : Engine) (c : Component) (name value : string) : Property :=
  match getFirstProperty c name with
  | Some (_, p) => replaced p value
  | None => created E name value
  end.

(** The engine reads the value of an entry in the property it is written
    to on [c]. *)
Definition accepted (E : Engine) (c : Component) (kv : string * string) : Prop :=
  decorate E (written E c (toLowerCase E kv.1) kv.2) kv.2 = Return tt.

(** An entry is settled on a node: the property its upsert finds holds
    its value as the only value, and the engine reads that value there. *)
Definition settled (E : Engine) (c : Component) (kv : string * string) : Prop :=
  ∃ i p,
    getFirstProperty c (toLowerCase E kv.1) = Some (i, p)
    ∧ pvalues p = [JS.Str kv.2]
    ∧ decorate E p kv.2 = Return tt.

(** No key of the map lowercases to the empty string. *)
Definition noEmptyKey (E : Engine) (fields : FieldUpdates) : Prop :=
  ∀ kv, kv ∈ fields → toLowerCase E kv.1 ≠ "".

(** The tree of [Samples.vevent] after the loop has run on
    [SUMMARY: Updated]. *)
Definition updatedEvent : Component :=
  Eval vm_compute in
    Parsed.orEmpty (forEntries RefEngine.engine [("SUMMARY", "Updated")] (Sub 0) Parsed.vevent).


(** The place in a list of property names that [getFirstProperty] goes
    to for a name. *)
Definition targetIndex (names : list string) (name : string) : option nat :=
  if String.eqb name "" then match names with [] => None | _ :: _ => Some 0 end
  else fst <$> list_find (fun n => n = name) names.

(** What [setValue] leaves of a property: name, parameters and type. *)
Definition shape (p : Property) : string * list (string * string) * string :=
  (pname p, pparams p, ptype p).

(** * Properties *)

(** ** JavaScript values *)

Lemma truthy_Str s : JS.truthy (JS.Str s) = false ↔ s = "".
Proof.
  simpl. rewrite negb_false_iff. apply String.eqb_eq.
Qed.

Lemma falsy_cases v :
  JS.truthy v = false ↔
  v = JS.Undefined ∨ v = JS.Null ∨ v = JS.Bool false ∨ v = JS.Number 0 ∨ v = JS.Str "".
Proof.
  split.
  - destruct v as [| |[]|n|s|l]; simpl; intros Hv; try discriminate; auto.
    + apply negb_false_iff, Z.eqb_eq in Hv. subst. auto.
    + apply negb_false_iff, String.eqb_eq in Hv. subst. auto 6.
  - intros [->|[->|[->|[->| ->]]]]; reflexivity.
Qed.

(** ** The three messages are told apart by their first letter *)

Lemma invalid_not_parse_failure message :
  invalidInputMessage ≠ parseFailurePrefix ++ message.
Proof. discriminate. Qed.

Lemma no_component_not_parse_failure message :
  noComponentMessage ≠ parseFailurePrefix ++ message.
Proof. discriminate. Qed.

Lemma invalid_not_no_component : invalidInputMessage ≠ noComponentMessage.
Proof. discriminate. Qed.

(** ** Running the function *)

Section Run.
Variable E : Engine.

Lemma icalString_run c h : icalString c h = (Return (inputValue h c), h).
Proof. by destruct c. Qed.

Lemma updateFields_run c fields h :
  updateFields E c fields h = (outcomeOn E (inputValue h c) fields, h).
Proof.
  unfold updateFields, outcomeOn, mbind, M_bind, M.bind, mret, M_ret.
  rewrite icalString_run.
  destruct (JS.truthy (inputValue h c)); simpl; [|done].
  unfold M.tryCatch, M.lift, M.throw.
  destruct (parse E (inputValue h c)) as [[component|roots]|message]; [|done|done].
  destruct (actualComponent component) as [target|message]; simpl; [|done].
  by destruct (forEntries E fields target component).
Qed.

(** Heap-preserving calls: the combinators keep them so. *)

Lemma readOnly_ret {A} (a : A) : M.readOnly (M.ret a).
Proof. by intros h. Qed.

Lemma readOnly_throw {A} message : M.readOnly (@M.throw A message).
Proof. by intros h. Qed.

Lemma readOnly_lift {A} (o : Outcome A) : M.readOnly (M.lift o).
Proof. by intros h. Qed.

Lemma readOnly_getProp l k : M.readOnly (M.getProp l k).
Proof. by intros h. Qed.

Lemma readOnly_bind {A B} (m : M A) (k : A → M B) :
  M.readOnly m → (∀ a, M.readOnly (k a)) → M.readOnly (M.bind m k).
Proof.
  intros Hm Hk h. unfold M.bind. specialize (Hm h).
  destruct (m h) as [[a|message] h']; simpl in *; subst; [apply Hk|done].
Qed.

Lemma readOnly_tryCatch {A} (body : M A) handler :
  M.readOnly body → (∀ message, M.readOnly (handler message)) →
  M.readOnly (M.tryCatch body handler).
Proof.
  intros Hb Hh h. unfold M.tryCatch. specialize (Hb h).
  destruct (body h) as [[a|message] h']; simpl in *; subst; [done|apply Hh].
Qed.

Lemma readOnly_icalString c : M.readOnly (icalString c).
Proof. destruct c; [apply readOnly_ret|apply readOnly_getProp]. Qed.

End Run.

(** ** First match and filter *)

Open Scope list_scope.

Section FindFilter.
Context {A : Type} (P : A → Prop) `{!∀ x, Decision (P x)}.

Lemma filter_none (l : list A) : Forall (λ x, ¬ P x) l → filter P l = [].
Proof.
  induction 1 as [|x l Hx _ IH]; [done|].
  by rewrite filter_cons_False.
Qed.

Lemma find_split (l : list A) i x :
  list_find P l = Some (i, x) →
  l = take i l ++ x :: drop (S i) l ∧ filter P (take i l) = [] ∧ P x ∧ i < length l.
Proof.
  intros (Hi & HP & Hbefore)%list_find_Some. split_and!; [| |done|].
  - by rewrite take_drop_middle.
  - apply filter_none, Forall_forall. intros y Hy%list_elem_of_lookup.
    destruct Hy as [j Hj]. pose proof (lookup_lt_Some _ _ _ Hj) as Hlen.
    rewrite length_take in Hlen. rewrite lookup_take_lt in Hj by lia.
    eapply Hbefore; [done|lia].
  - by eapply lookup_lt_Some.
Qed.

Lemma find_none_filter (l : list A) : list_find P l = None → filter P l = [].
Proof. intros Hl%list_find_None. by apply filter_none. Qed.

(** Putting an entry that the filter drops in the place of one that it
    drops changes nothing of what it keeps. *)
Lemma filter_insert_out (l : list A) i x y :
  l !! i = Some x → ¬ P x → ¬ P y → filter P (<[i := y]> l) = filter P l.
Proof.
  intros Hi Hx Hy. rewrite insert_take_drop by by eapply lookup_lt_Some.
  rewrite <- (take_drop_middle l i x Hi) at 3.
  by rewrite !filter_app, !filter_cons_False.
Qed.

End FindFilter.

(** ** The first property of a name *)

Section FirstProperty.

Lemma getFirstProperty_empty c :
  getFirstProperty c "" = (λ p, (0, p)) <$> head (cprops c).
Proof. done. Qed.

Lemma getFirstProperty_name c name :
  name ≠ "" → getFirstProperty c name = list_find (λ p, pname p = name) (cprops c).
Proof.
  intros Hname. unfold getFirstProperty.
  destruct (String.eqb name "") eqn:Heq; [|done]. by apply String.eqb_eq in Heq.
Qed.

Lemma getFirstProperty_lookup c name i p :
  getFirstProperty c name = Some (i, p) → cprops c !! i = Some p.
Proof.
  unfold getFirstProperty. destruct (String.eqb name "").
  - destruct (cprops c) as [|p0 rest]; simpl; [done|]. by intros [= <- <-].
  - by intros (Hi & _)%list_find_Some.
Qed.


Lemma getFirstProperty_None c name :
  getFirstProperty c name = None → name ∉ pname <$> cprops c.
Proof.
  unfold getFirstProperty. destruct (String.eqb name "").
  - destruct (cprops c) as [|p0 rest]; simpl; [|done]. intros _. apply not_elem_of_nil.
  - intros Hnone%list_find_None. rewrite Forall_forall in Hnone.
    intros (p & -> & Hin)%list_elem_of_fmap. by eapply Hnone.
Qed.

Lemma getFirstProperty_named c name p later :
  name ≠ "" →
  named name (cprops c) = p :: later →
  ∃ i, getFirstProperty c name = Some (i, p).
Proof.
  intros Hname Hnamed. rewrite getFirstProperty_name by done. unfold named in *.
  destruct (list_find _ (cprops c)) as [[i q]|] eqn:Hfind.
  - apply find_split in Hfind as (Hl & Hnone & Hq & _). simpl in Hq.
    rewrite Hl, filter_app, Hnone, filter_cons_True in Hnamed by done.
    injection Hnamed as -> _. eauto.
  - by rewrite (find_none_filter _ _ Hfind) in Hnamed.
Qed.

End FirstProperty.

(** ** One upsert *)

Section Upsert.
Variable E : Engine.

Lemma setValue_Return p value p' :
  setValue E p value = Return p' → p' = replaced p value.
Proof.
  unfold setValue, mbind, Outcome_bind, Outcome.bind.
  destruct (decorate E _ value); [|done]. by intros [= <-].
Qed.

Lemma setValue_accepts p value :
  acceptsAll E → setValue E p value = Return (replaced p value).
Proof. intros HE. unfold setValue. by rewrite HE. Qed.

Lemma upsert_Return c name value c' :
  updatePropertyWithValue E c name value = Return c' →
  cname c' = cname c ∧ csubs c' = csubs c ∧
  ((∃ i p, getFirstProperty c name = Some (i, p)
           ∧ cprops c' = <[i := replaced p value]> (cprops c))
   ∨ (getFirstProperty c name = None
      ∧ cprops c' = cprops c ++ [created E name value])).
Proof.
  unfold updatePropertyWithValue, addPropertyWithValue.
  destruct (getFirstProperty c name) as [[i p]|] eqn:Hfind;
    unfold mbind, Outcome_bind, Outcome.bind.
  - destruct (setValue E p value) as [p'|] eqn:Hset; [|done].
    apply setValue_Return in Hset as ->. intros [= <-]. simpl. eauto 10.
  - destruct (setValue E (newProperty E name) value) as [p'|] eqn:Hset; [|done].
    apply setValue_Return in Hset as ->. intros [= <-]. simpl. eauto 10.
Qed.

Lemma upsert_accepts c name value :
  acceptsAll E → ∃ c', updatePropertyWithValue E c name value = Return c'.
Proof.
  intros HE. unfold updatePropertyWithValue, addPropertyWithValue.
  destruct (getFirstProperty c name) as [[i p]|];
    rewrite setValue_accepts by done; simpl; eauto.
Qed.

(** An upsert under a name that is not empty leaves the properties of
    every other name where they were. *)
Lemma upsert_filter_other (P : string → Prop) `{!∀ s, Decision (P s)} c name value c' :
  updatePropertyWithValue E c name value = Return c' →
  name ≠ "" →
  ¬ P name →
  filter (λ p, P (pname p)) (cprops c') = filter (λ p, P (pname p)) (cprops c).
Proof.
  intros (_ & _ & [(i & p & Hfind & ->)|[_ ->]])%upsert_Return Hname HP.
  - pose proof (getFirstProperty_lookup _ _ _ _ Hfind) as Hi.
    rewrite getFirstProperty_name in Hfind by done.
    apply list_find_Some in Hfind as (_ & Hp & _). simpl in Hp.
    apply (filter_insert_out (λ p, P (pname p)) _ i p); [done| |]; simpl; congruence.
  - rewrite filter_app, filter_cons_False, filter_nil, app_nil_r; done.
Qed.


Lemma upsert_named_other c name value c' other :
  updatePropertyWithValue E c name value = Return c' →
  name ≠ "" →
  name ≠ other →
  named other (cprops c') = named other (cprops c).
Proof.
  intros Hrun Hname Hne.
  pose proof (upsert_filter_other (λ s, s = other) c name value c' Hrun Hname Hne) as Hkeep.
  apply Hkeep.
Qed.

(** The first property of the name carries the value, the later ones of
    the same name stay. *)
Lemma upsert_named c name value c' :
  updatePropertyWithValue E c name value = Return c' →
  name ≠ "" →
  named name (cprops c') =
    match named name (cprops c) with
    | [] => [created E name value]
    | p :: later => replaced p value :: later
    end.
Proof.
  intros (_ & _ & [(i & p & Hfind & ->)|[Hfind ->]])%upsert_Return Hname;
    rewrite getFirstProperty_name in Hfind by done; unfold named.
  - apply find_split in Hfind as (Hl & Hnone & Hp & Hi). simpl in Hp.
    rewrite insert_take_drop by done. rewrite Hl at 3.
    rewrite !filter_app, Hnone, !filter_cons_True by done. done.
  - rewrite filter_app. apply find_none_filter in Hfind as ->. simpl.
    by rewrite filter_cons_True, filter_nil.
Qed.

(** What one upsert, under whatever name, can do to the properties of a
    name that is not empty. *)
Lemma upsert_named_step c name value c' other :
  updatePropertyWithValue E c name value = Return c' →
  other ≠ "" →
  match named other (cprops c) with
  | [] => named other (cprops c') = []
          ∨ named other (cprops c') = [created E other value]
  | p :: later => named other (cprops c') = p :: later
                  ∨ named other (cprops c') = replaced p value :: later
  end.
Proof.
  intros Hrun Hother.
  destruct (decide (name = "")) as [->|Hname].
  - apply upsert_Return in Hrun as (_ & _ & [(i & p & Hfind & ->)|[Hfind ->]]).
    + rewrite getFirstProperty_empty in Hfind.
      destruct (cprops c) as [|p0 rest]; [done|]. simpl in Hfind.
      injection Hfind as <- <-. simpl. unfold named.
      destruct (decide (pname p0 = other)) as [Hp|Hp].
      * rewrite !filter_cons_True by done. by right.
      * rewrite !filter_cons_False by done.
        destruct (filter _ rest); by left.
    + rewrite getFirstProperty_empty in Hfind.
      destruct (cprops c) as [|p0 rest]; [|done]. simpl. unfold named.
      rewrite filter_cons_False by (simpl; congruence). by left.
  - destruct (decide (name = other)) as [<-|Hne].
    + rewrite (upsert_named _ _ _ _ Hrun Hname).
      destruct (named name (cprops c)); by right.
    + rewrite (upsert_named_other _ _ _ _ other Hrun Hname Hne).
      destruct (named other (cprops c)); by left.
Qed.

(** Names keep their places; a name that is not found goes to the end. *)
Lemma upsert_names c name value c' :
  updatePropertyWithValue E c name value = Return c' →
  pname <$> cprops c' =
    (pname <$> cprops c)
    ++ match getFirstProperty c name with Some _ => [] | None => [name] end.
Proof.
  intros (_ & _ & [(i & p & Hfind & ->)|[Hfind ->]])%upsert_Return; rewrite Hfind.
  - apply getFirstProperty_lookup in Hfind.
    rewrite list_fmap_insert, app_nil_r. apply list_insert_id.
    by rewrite list_lookup_fmap, Hfind.
  - by rewrite fmap_app.
Qed.

(** So do parameters and types. *)
Lemma upsert_shapes c name value c' :
  updatePropertyWithValue E c name value = Return c' →
  shape <$> cprops c' =
    (shape <$> cprops c)
    ++ match getFirstProperty c name with
       | Some _ => []
       | None => [(name, [], defaultType E name)]
       end.
Proof.
  intros (_ & _ & [(i & p & Hfind & ->)|[Hfind ->]])%upsert_Return; rewrite Hfind.
  - apply getFirstProperty_lookup in Hfind.
    rewrite list_fmap_insert, app_nil_r. apply list_insert_id.
    by rewrite list_lookup_fmap, Hfind.
  - by rewrite fmap_app.
Qed.

End Upsert.

(** ** The loop, on the node it writes to *)

Section Loop.
Variable E : Engine.

Lemma upsertAll_cons key value rest c :
  upsertAll E ((key, value) :: rest) c =
    Outcome.bind (updatePropertyWithValue E c (toLowerCase E key) value) (upsertAll E rest).
Proof. done. Qed.

Lemma upsertAll_app fields1 fields2 c :
  upsertAll E (fields1 ++ fields2) c =
    Outcome.bind (upsertAll E fields1 c) (upsertAll E fields2).
Proof.
  revert c. induction fields1 as [|[key value] rest IH]; intros c; [done|].
  simpl. unfold mbind, Outcome_bind.
  destruct (updatePropertyWithValue E c (toLowerCase E key) value); simpl; [apply IH|done].
Qed.

(** Inversion of one round of the loop. *)
Lemma upsertAll_step key value rest c c' :
  upsertAll E ((key, value) :: rest) c = Return c' →
  ∃ c1, updatePropertyWithValue E c (toLowerCase E key) value = Return c1
        ∧ upsertAll E rest c1 = Return c'.
Proof.
  rewrite upsertAll_cons.
  destruct (updatePropertyWithValue E c (toLowerCase E key) value) as [c1|]; [|done].
  eauto.
Qed.

Lemma upsertAll_accepts fields c :
  acceptsAll E → ∃ c', upsertAll E fields c = Return c'.
Proof.
  intros HE. revert c. induction fields as [|[key value] rest IH]; intros c; [by eexists|].
  destruct (upsert_accepts E c (toLowerCase E key) value HE) as [c1 Hc1].
  rewrite upsertAll_cons, Hc1. apply IH.
Qed.

Lemma upsertAll_frame fields c c' :
  upsertAll E fields c = Return c' → cname c' = cname c ∧ csubs c' = csubs c.
Proof.
  revert c. induction fields as [|[key value] rest IH]; intros c.
  - by intros [= <-].
  - intros (c1 & (Hn & Hs & _)%upsert_Return & Hrest%IH)%upsertAll_step.
    destruct Hrest. split; congruence.
Qed.

Lemma noEmptyKey_cons kv fields :
  noEmptyKey E (kv :: fields) ↔ toLowerCase E kv.1 ≠ "" ∧ noEmptyKey E fields.
Proof.
  unfold noEmptyKey. split.
  - intros Hall. split; [apply Hall; left|]. intros kv' Hin. apply Hall. by right.
  - intros [Hhead Hrest] kv' [->|Hin]%elem_of_cons; [done|by apply Hrest].
Qed.

Lemma noEmptyKey_app fields1 fields2 :
  noEmptyKey E (fields1 ++ fields2) ↔ noEmptyKey E fields1 ∧ noEmptyKey E fields2.
Proof.
  unfold noEmptyKey. setoid_rewrite elem_of_app. split.
  - intros Hall. split; intros kv Hin; apply Hall; [by left|by right].
  - intros [H1 H2] kv [Hin|Hin]; [by apply H1|by apply H2].
Qed.

Lemma noEmptyKey_loweredKeys fields : noEmptyKey E fields ↔ "" ∉ loweredKeys E fields.
Proof.
  unfold noEmptyKey, loweredKeys. rewrite list_elem_of_fmap. split.
  - intros Hall (kv & Heq & Hin). by apply (Hall kv).
  - intros Hnot kv Hin Heq. apply Hnot. eauto.
Qed.


(** The properties of the names the map does not write: all of them when
    the map has no empty key, all past the first property in any case. *)
Lemma upsertAll_filter (P : string → Prop) `{!∀ s, Decision (P s)} fields c c' :
  upsertAll E fields c = Return c' →
  noEmptyKey E fields →
  (∀ kv, kv ∈ fields → ¬ P (toLowerCase E kv.1)) →
  filter (λ p, P (pname p)) (cprops c') = filter (λ p, P (pname p)) (cprops c).
Proof.
  revert c. induction fields as [|[key value] rest IH]; intros c.
  - by intros [= <-].
  - intros (c1 & Hc1 & Hrest)%upsertAll_step [Hkey Hne]%noEmptyKey_cons Hkeys.
    rewrite (IH c1 Hrest Hne), (upsert_filter_other E P c _ _ c1 Hc1 Hkey); [done| |].
    + apply (Hkeys (key, value)). left.
    + intros kv Hkv. apply Hkeys. by right.
Qed.





(** What any number of rounds can do to the properties of a name that is
    not empty: the first may have a new value, or one property may have
    been created; the later ones are as they were. *)
Lemma upsertAll_named_shape name fields c c' :
  name ≠ "" →
  upsertAll E fields c = Return c' →
  match named name (cprops c) with
  | [] => named name (cprops c') = []
          ∨ ∃ v, named name (cprops c') = [created E name v]
  | p :: later => named name (cprops c') = p :: later
                  ∨ ∃ v, named name (cprops c') = replaced p v :: later
  end.
Proof.
  intros Hname. revert c. induction fields as [|[key value] rest IH]; intros c.
  - intros [= <-]. destruct (named name (cprops c)); auto.
  - intros (c1 & Hc1 & Hrest)%upsertAll_step. specialize (IH c1 Hrest).
    pose proof (upsert_named_step E _ _ _ _ name Hc1 Hname) as Hstep.
    destruct (named name (cprops c)) as [|p later].
    + destruct Hstep as [Hs|Hs]; rewrite Hs in IH.
      * done.
      * destruct IH as [->|[v ->]]; right; eauto.
    + destruct Hstep as [Hs|Hs]; rewrite Hs in IH.
      * done.
      * destruct IH as [->|[v ->]]; right; eauto.
Qed.

Lemma upsertAll_named_other name fields c c' :
  upsertAll E fields c = Return c' →
  noEmptyKey E fields →
  (∀ kv, kv ∈ fields → toLowerCase E kv.1 ≠ name) →
  named name (cprops c') = named name (cprops c).
Proof.
  intros Hrun Hne Hkeys.
  pose proof (upsertAll_filter (λ s, s = name) fields c c' Hrun Hne Hkeys) as Hkeep.
  apply Hkeep.
Qed.

(** The key that is enumerated last among its spellings, with no empty
    key after it, decides the value of the first property of that
    name. *)
Lemma upsertAll_named_last before key value after c c' :
  upsertAll E (before ++ (key, value) :: after) c = Return c' →
  toLowerCase E key ≠ "" →
  noEmptyKey E after →
  (∀ kv, kv ∈ after → toLowerCase E kv.1 ≠ toLowerCase E key) →
  named (toLowerCase E key) (cprops c') =
    match named (toLowerCase E key) (cprops c) with
    | [] => [created E (toLowerCase E key) value]
    | p :: later => replaced p value :: later
    end.
Proof.
  rewrite upsertAll_app. intros Hrun Hkey Hne Hlast.
  destruct (upsertAll E before c) as [c1|] eqn:Hbefore; [|done]. simpl in Hrun.
  apply upsertAll_step in Hrun as (c2 & Hc2 & Hafter).
  pose proof (upsertAll_named_shape (toLowerCase E key) _ _ _ Hkey Hbefore) as Hshape.
  pose proof (upsert_named E _ _ _ _ Hc2 Hkey) as Hnamed.
  rewrite (upsertAll_named_other _ after c2 c' Hafter Hne Hlast), Hnamed.
  destruct (named _ (cprops c)) as [|p later].
  - by destruct Hshape as [->|[v ->]].
  - by destruct Hshape as [->|[v ->]].
Qed.

(** Names keep their places, new ones are appended. *)
Lemma upsertAll_names fields c c' :
  upsertAll E fields c = Return c' →
  ∃ extra, pname <$> cprops c' = (pname <$> cprops c) ++ extra
           ∧ ∀ name, name ∈ extra →
               name ∈ loweredKeys E fields ∧ name ∉ pname <$> cprops c.
Proof.
  revert c. induction fields as [|[key value] rest IH]; intros c.
  - intros [= <-]. exists []. rewrite app_nil_r. split; [done|]. by intros ? ?%elem_of_nil.
  - intros (c1 & Hc1 & Hrest)%upsertAll_step.
    destruct (IH c1 Hrest) as (extra & Hnames & Hextra).
    apply upsert_names in Hc1. rewrite Hc1 in Hnames, Hextra.
    eexists. rewrite Hnames, <- app_assoc. split; [done|].
    intros name [Hin|Hin]%elem_of_app.
    + destruct (getFirstProperty c (toLowerCase E key)) eqn:Hfind;
        [by apply elem_of_nil in Hin|].
      apply list_elem_of_singleton in Hin as ->. split.
      * unfold loweredKeys. rewrite fmap_cons. left.
      * by apply getFirstProperty_None.
    + destruct (Hextra name Hin) as [Hkey Hnew]. split.
      * unfold loweredKeys in *. rewrite fmap_cons. by right.
      * intros Hold. apply Hnew, elem_of_app. by left.
Qed.

(** With no empty key, the appended names are the lowercased keys the
    node did not have, each once. *)
Lemma upsertAll_names_exact fields c c' :
  upsertAll E fields c = Return c' →
  noEmptyKey E fields →
  ∃ extra,
    pname <$> cprops c' = (pname <$> cprops c) ++ extra
    ∧ NoDup extra
    ∧ ∀ name, name ∈ extra ↔ name ∈ loweredKeys E fields ∧ name ∉ pname <$> cprops c.
Proof.
  revert c. induction fields as [|[key value] rest IH]; intros c.
  - intros [= <-] _. exists []. rewrite app_nil_r. split_and!; [done|constructor|].
    intros name. split; [by intros ?%elem_of_nil|]. by intros [?%elem_of_nil _].
  - intros (c1 & Hc1 & Hrest)%upsertAll_step [Hkey Hne]%noEmptyKey_cons.
    destruct (IH c1 Hrest Hne) as (extra & Hnames & Hnodup & Hextra).
    apply upsert_names in Hc1. rewrite Hc1 in Hnames, Hextra.
    unfold loweredKeys. rewrite fmap_cons. simpl. fold (loweredKeys E rest).
    rewrite getFirstProperty_name in Hnames, Hextra by done.
    destruct (list_find _ (cprops c)) as [[i p]|] eqn:Hfind.
    + assert (Hold : toLowerCase E key ∈ pname <$> cprops c).
      { apply list_find_Some in Hfind as (Hi & Hp & _). simpl in Hp. rewrite <- Hp.
        apply list_elem_of_fmap_2. by eapply list_elem_of_lookup_2. }
      rewrite app_nil_r in Hnames, Hextra. exists extra. split_and!; [done..|].
      intros name. rewrite Hextra, elem_of_cons. split.
      * intros [Hin Hnew]. split; [by right|done].
      * intros [[->|Hin] Hnew]; [done|done].
    + assert (Hold : toLowerCase E key ∉ pname <$> cprops c).
      { apply list_find_None in Hfind. rewrite Forall_forall in Hfind.
        intros (p & Hp & Hin)%list_elem_of_fmap. by eapply Hfind. }
      exists (toLowerCase E key :: extra).
      rewrite Hnames, <- app_assoc. split_and!; [done| |].
      * apply NoDup_cons. split; [|done]. rewrite Hextra.
        intros [_ Hnew]. apply Hnew, elem_of_app. right. left.
      * intros name. rewrite !elem_of_cons, Hextra, elem_of_app, list_elem_of_singleton.
        split.
        -- intros [->|[Hin Hnew]]; [by auto|]. split; [by auto|]. by auto.
        -- intros [[->|Hin] Hnew]; [by left|].
           destruct (decide (name = toLowerCase E key)) as [->|Hneq]; [by left|].
           right. split; [done|]. by intros [?|?].
Qed.

(** Parameters and types keep their places too. *)
Lemma upsertAll_shapes fields c c' :
  upsertAll E fields c = Return c' →
  ∃ extra,
    shape <$> cprops c' = (shape <$> cprops c) ++ extra
    ∧ ∀ s, s ∈ extra →
        ∃ name, name ∈ loweredKeys E fields ∧ s = (name, [], defaultType E name).
Proof.
  revert c. induction fields as [|[key value] rest IH]; intros c.
  - intros [= <-]. exists []. rewrite app_nil_r. split; [done|]. by intros ? ?%elem_of_nil.
  - intros (c1 & Hc1 & Hrest)%upsertAll_step.
    destruct (IH c1 Hrest) as (extra & Hshapes & Hextra).
    apply upsert_shapes in Hc1. rewrite Hc1 in Hshapes.
    eexists. rewrite Hshapes, <- app_assoc. split; [done|].
    intros s [Hin|Hin]%elem_of_app.
    + destruct (getFirstProperty c (toLowerCase E key)); [by apply elem_of_nil in Hin|].
      apply list_elem_of_singleton in Hin as ->.
      exists (toLowerCase E key). split; [left|done].
    + destruct (Hextra s Hin) as (name & Hkey & ->).
      exists name. split; [by right|done].
Qed.

End Loop.

(** ** References into the tree *)

Section References.
Variable E : Engine.

Lemma store_deref root r c : deref root r = Some c → store root r c = root.
Proof.
  destruct r as [|i]; simpl; [by intros [= ->]|].
  intros Hi. rewrite list_insert_id by done. by destruct root.
Qed.

Lemma deref_store root r c c' : deref root r = Some c → deref (store root r c') r = Some c'.
Proof.
  destruct r as [|i]; simpl; [done|].
  intros Hi%lookup_lt_Some. by apply list_lookup_insert_eq.
Qed.

Lemma store_store root r c1 c2 : store (store root r c1) r c2 = store root r c2.
Proof. destruct r as [|i]; simpl; [done|]. by rewrite list_insert_insert_eq. Qed.


(** The loop through a reference is the loop on the node, written back
    into the tree. *)
Lemma forEntries_node fields r root c :
  deref root r = Some c →
  forEntries E fields r root =
    Outcome.map (store root r) (upsertAll E fields c).
Proof.
  revert root c. induction fields as [|[key value] rest IH]; intros root c Hc; simpl.
  - unfold Outcome.map. simpl. by rewrite store_deref.
  - unfold updateThrough. rewrite Hc.
    unfold mbind, Outcome_bind, Outcome.map, Outcome.bind.
    destruct (updatePropertyWithValue E c (toLowerCase E key) value) as [c1|]; [|done].
    simpl. rewrite (IH (store root r c1) c1) by by eapply deref_store.
    unfold Outcome.map, Outcome.bind.
    destruct (upsertAll E rest c1); [|done]. by rewrite store_store.
Qed.

Lemma getFirstSubcomponent_Some c name r :
  getFirstSubcomponent c name = Some r ↔ ∃ i, r = Sub i ∧ firstOfType name (csubs c) i.
Proof.
  unfold getFirstSubcomponent, firstOfType. rewrite fmap_Some. split.
  - intros ([i s] & (Hi & Hs & Hleast)%list_find_Some & ->). exists i. simpl.
    split; [done|]. split; [eauto|]. intros j s' Hj Hs'. by eapply Hleast.
  - intros (i & -> & (s & Hi & Hs) & Hleast). exists (i, s). split; [|done].
    apply list_find_Some. split_and!; [done..|]. intros j s' Hs' Hj. by eapply Hleast.
Qed.

Lemma getFirstSubcomponent_None c name :
  getFirstSubcomponent c name = None ↔ noneOfType name (csubs c).
Proof.
  unfold getFirstSubcomponent, noneOfType.
  rewrite fmap_None, list_find_None, Forall_forall. done.
Qed.

Lemma getFirstSubcomponent_deref c name r :
  getFirstSubcomponent c name = Some r → ∃ s, deref c r = Some s ∧ cname s = name.
Proof. intros (i & -> & (s & Hi & Hs) & _)%getFirstSubcomponent_Some. eauto. Qed.

Lemma actualComponent_deref tree r :
  actualComponent tree = Return r → is_Some (deref tree r).
Proof.
  unfold actualComponent. destruct (String.eqb (cname tree) "vcalendar").
  - destruct (getFirstSubcomponent tree "vevent") as [r1|] eqn:H1; simpl.
    { intros [= <-]. apply getFirstSubcomponent_deref in H1 as (s & -> & _). eauto. }
    destruct (getFirstSubcomponent tree "vtodo") as [r2|] eqn:H2; simpl.
    { intros [= <-]. apply getFirstSubcomponent_deref in H2 as (s & -> & _). eauto. }
    destruct (getFirstSubcomponent tree "vjournal") as [r3|] eqn:H3; simpl; [|done].
    intros [= <-]. apply getFirstSubcomponent_deref in H3 as (s & -> & _). eauto.
  - intros [= <-]. simpl. eauto.
Qed.

(** The call, once the record has parsed and a target is found: the
    upserts run on the target node and the whole tree is serialised. *)
Lemma outcomeOn_target v fields (tree : Component) r node :
  JS.truthy v = true →
  parse E v = Return tree →
  actualComponent tree = Return r →
  deref tree r = Some node →
  outcomeOn E v fields =
    Outcome.map (λ node', stringify E (store tree r node')) (upsertAll E fields node).
Proof.
  intros Hv Hparse Htarget Hnode. unfold outcomeOn. rewrite Hv, Hparse, Htarget.
  unfold mbind, Outcome_bind, mret, Outcome_ret. simpl.
  rewrite (forEntries_node fields r tree node Hnode).
  unfold Outcome.map, Outcome.bind. by destruct (upsertAll E fields node).
Qed.

End References.

(** ** The shape of the tree *)

Lemma find_by_name (l1 l2 : list Component) name :
  cname <$> l1 = cname <$> l2 →
  fst <$> list_find (λ s, cname s = name) l1 = fst <$> list_find (λ s, cname s = name) l2.
Proof.
  revert l2. induction l1 as [|s1 l1 IH]; intros [|s2 l2] Hnames; try done.
  injection Hnames as Hname Hrest. specialize (IH l2 Hrest). csimpl.
  rewrite Hname. case_decide; [done|].
  rewrite <- !option_fmap_compose.
  destruct (list_find _ l1) as [[i1 x1]|], (list_find _ l2) as [[i2 x2]|];
    simpl in *; congruence.
Qed.

Lemma getFirstSubcomponent_names c c' name :
  cname <$> csubs c = cname <$> csubs c' →
  getFirstSubcomponent c name = getFirstSubcomponent c' name.
Proof.
  intros Hnames%(find_by_name _ _ name). unfold getFirstSubcomponent.
  destruct (list_find _ (csubs c)) as [[i1 x1]|], (list_find _ (csubs c')) as [[i2 x2]|];
    simpl in *; congruence.
Qed.

(** Step 3 looks at the name of the root and the names of its
    sub-components, and at nothing else. *)
Lemma actualComponent_names c c' :
  cname c = cname c' →
  cname <$> csubs c = cname <$> csubs c' →
  actualComponent c = actualComponent c'.
Proof.
  intros Hname Hsubs. unfold actualComponent.
  by rewrite Hname, !(getFirstSubcomponent_names c c' _ Hsubs).
Qed.

Lemma store_names root r node node' :
  deref root r = Some node →
  cname node' = cname node →
  csubs node' = csubs node →
  cname (store root r node') = cname root
  ∧ cname <$> csubs (store root r node') = cname <$> csubs root.
Proof.
  destruct r as [|i]; simpl.
  - intros [= ->] -> ->. done.
  - intros Hi Hname _. split; [done|].
    rewrite list_fmap_insert, Hname. apply list_insert_id.
    by rewrite list_lookup_fmap, Hi.
Qed.

Lemma forEntries_app E fields1 fields2 r root :
  forEntries E (fields1 ++ fields2) r root =
    Outcome.bind (forEntries E fields1 r root) (forEntries E fields2 r).
Proof.
  revert root. induction fields1 as [|[key value] rest IH]; intros root; [done|].
  simpl. unfold mbind, Outcome_bind.
  destruct (updateThrough E root r (toLowerCase E key) value); simpl; [apply IH|done].
Qed.

(** What the loop returns is the tree with the target node replaced, and
    step 3 finds the same target in it. *)
Lemma forEntries_Return E fields r tree node tree' :
  actualComponent tree = Return r →
  deref tree r = Some node →
  forEntries E fields r tree = Return tree' →
  ∃ node', upsertAll E fields node = Return node'
           ∧ tree' = store tree r node'
           ∧ deref tree' r = Some node'
           ∧ cname tree' = cname tree
           ∧ cname <$> csubs tree' = cname <$> csubs tree
           ∧ actualComponent tree' = Return r.
Proof.
  intros Htarget Hnode. rewrite (forEntries_node E fields r tree node Hnode).
  unfold Outcome.map, Outcome.bind.
  destruct (upsertAll E fields node) as [node'|] eqn:Hloop; [|done].
  intros [= <-]. exists node'.
  destruct (upsertAll_frame E _ _ _ Hloop) as [Hname Hsubs].
  destruct (store_names tree r node node' Hnode Hname Hsubs) as [Hroot Hnames].
  split_and!; try done.
  - by eapply deref_store.
  - by rewrite (actualComponent_names _ tree Hroot Hnames).
Qed.

Lemma outcomeOn_reread E fields r (tree1 : Component) :
  parse E (JS.Str (stringify E tree1)) = Return tree1 →
  stringify E tree1 ≠ "" →
  actualComponent tree1 = Return r →
  outcomeOn E (JS.Str (stringify E tree1)) fields =
    Outcome.map (stringify E) (forEntries E fields r tree1).
Proof.
  intros Hread Hne Htarget. unfold outcomeOn.
  destruct (JS.truthy (JS.Str (stringify E tree1))) eqn:Hv.
  - rewrite Hread, Htarget. unfold mbind, Outcome_bind, mret, Outcome_ret. simpl.
    unfold Outcome.map, Outcome.bind. by destruct (forEntries E fields r tree1).
  - by apply truthy_Str in Hv.
Qed.

(** ** The place an upsert goes to *)

Section Places.
Variable E : Engine.


(** The place an upsert goes to is decided by the names in the list. *)
Lemma getFirstProperty_index c name :
  fst <$> getFirstProperty c name = targetIndex (pname <$> cprops c) name.
Proof.
  unfold getFirstProperty, targetIndex. destruct (String.eqb name "").
  - by destruct (cprops c).
  - rewrite list_find_fmap. rewrite <- option_fmap_compose.
    apply option_fmap_ext. by intros [i p].
Qed.

Lemma targetIndex_app names extra name i :
  targetIndex names name = Some i → targetIndex (names ++ extra) name = Some i.
Proof.
  unfold targetIndex. destruct (String.eqb name "").
  - by destruct names.
  - destruct (list_find _ names) as [[j n]|] eqn:Hfind; [|done].
    intros [= <-]. by rewrite (list_find_app_l _ _ _ _ _ Hfind).
Qed.

Lemma targetIndex_lt names name i : targetIndex names name = Some i → i < length names.
Proof.
  unfold targetIndex. destruct (String.eqb name "").
  - destruct names; [done|]. intros [= <-]. simpl. lia.
  - destruct (list_find _ names) as [[j n]|] eqn:Hfind; [|done].
    intros [= <-]. apply list_find_Some in Hfind as (Hj & _). by eapply lookup_lt_Some.
Qed.




Lemma replaced_shape (q w : Property) value :
  shape q = shape w → pvalues w = [JS.Str value] → replaced q value = w.
Proof.
  destruct q, w. unfold shape, replaced. simpl. intros [= -> -> ->] ->. done.
Qed.

End Places.

(** ** The scenarios of the spec, on the reference engine *)

Example scenario_update_summary :
  (updateFields RefEngine.engine (RawText Samples.vevent) [("SUMMARY", "Updated")] ∅).1
  = Return (RefEngine.text
      ["BEGIN:VCALENDAR"; "VERSION:2.0"; "PRODID:-//Test//Test//EN";
       "BEGIN:VEVENT"; "UID:test-event-123"; "DTSTART:20250128T100000Z";
       "SUMMARY:Updated"; "LOCATION:Office"; "END:VEVENT";
       "END:VCALENDAR"]).
Proof. vm_compute. reflexivity. Qed.

Example scenario_empty_map :
  (updateFields RefEngine.engine (RawText Samples.vevent) [] ∅).1 = Return Samples.vevent.
Proof. vm_compute. reflexivity. Qed.

Example scenario_contact :
  (updateFields RefEngine.engine (RawText Samples.vcard) [("FN", "Jane Doe")] ∅).1
  = Return (RefEngine.text
      ["BEGIN:VCARD"; "VERSION:3.0"; "FN:Jane Doe"; "EMAIL:john@example.com"; "END:VCARD"]).
Proof. vm_compute. reflexivity. Qed.

Example scenario_no_component :
  (updateFields RefEngine.engine (RawText Samples.zoneOnly) [("SUMMARY", "x")] ∅).1
  = Throw noComponentMessage.
Proof. vm_compute. reflexivity. Qed.

Example scenario_empty_record :
  (updateFields RefEngine.engine (RawText "") [("SUMMARY", "Test")] ∅).1
  = Throw invalidInputMessage.
Proof. vm_compute. reflexivity. Qed.

Example scenario_custom_field :
  (updateFields RefEngine.engine (RawText Samples.vevent)
     [("X-CUSTOM-FIELD", "value123")] ∅).1
  = Return (RefEngine.text
      ["BEGIN:VCALENDAR"; "VERSION:2.0"; "PRODID:-//Test//Test//EN";
       "BEGIN:VEVENT"; "UID:test-event-123"; "DTSTART:20250128T100000Z";
       "SUMMARY:Original"; "LOCATION:Office"; "X-CUSTOM-FIELD:value123"; "END:VEVENT";
       "END:VCALENDAR"]).
Proof. vm_compute. reflexivity. Qed.

(** The first event is written to although a task comes before it, and
    the task and the second event keep their [SUMMARY]. *)
Example scenario_first_event :
  (updateFields RefEngine.engine (RawText Samples.mixed) [("SUMMARY", "Updated")] ∅).1
  = Return (RefEngine.text
      ["BEGIN:VCALENDAR"; "VERSION:2.0";
       "BEGIN:VTIMEZONE"; "TZID:Europe/Berlin"; "END:VTIMEZONE";
       "BEGIN:VTODO"; "SUMMARY:Task"; "END:VTODO";
       "BEGIN:VEVENT"; "SUMMARY:Updated"; "END:VEVENT";
       "BEGIN:VEVENT"; "SUMMARY:Second"; "END:VEVENT";
       "END:VCALENDAR"]).
Proof. vm_compute. reflexivity. Qed.

(** An engine may refuse a value: the exception leaves the function as it
    is (tests: "Datetime properties require ICAL.Time objects"). *)
Example scenario_engine_throws :
  (updateFields RefEngine.engine (RawText Samples.vevent)
     [("DTSTART", "20250130T140000Z")] ∅).1
  = Throw "invalid date-time value: 20250130T140000Z".
Proof. vm_compute. reflexivity. Qed.

(** The empty key writes to the first property, whatever its name. *)
Example scenario_empty_key :
  (updateFields RefEngine.engine (RawText Samples.vcard) Samples.emptyKey ∅).1
  = Return (RefEngine.text
      ["BEGIN:VCARD"; "VERSION:v"; "FN:John Doe"; "EMAIL:john@example.com"; "END:VCARD"]).
Proof. vm_compute. reflexivity. Qed.

(** A start that is not in the iCalendar form comes back changed. *)
Example scenario_lossy :
  (updateFields RefEngine.engine (RawText Samples.extended) [] ∅).1
  = Return (RefEngine.text
      ["BEGIN:VCALENDAR"; "VERSION:2.0"; "PRODID:-//Test//Test//EN";
       "BEGIN:VEVENT"; "UID:test-event-123"; "DTSTART:2025-01-T8T10:0";
       "SUMMARY:Original"; "LOCATION:Office"; "END:VEVENT";
       "END:VCALENDAR"]).
Proof. vm_compute. reflexivity. Qed.

(** A text with two top-level components is read as an array, and the
    serialisation of step 5 throws. *)
Example scenario_two_roots :
  (updateFields RefEngine.engine (RawText Samples.twoContacts) [("FN", "Jane Roe")] ∅).1
  = Throw "component[0].toUpperCase is not a function".
Proof. vm_compute. reflexivity. Qed.

(** * The claims *)

(** ** Preservation *)




(** ** Upsert *)

(** C2, as the spec states it, fails on a field map with two keys that
    differ in letter case only: the event of the tree that is serialised
    has one [summary] property, with the value of the key enumerated
    last, and none with the value given under [SUMMARY]. *)
Lemma upsert_every_key_counterexample :
  NoDup Samples.colliding.*1
  ∧ ("SUMMARY", "a") ∈ Samples.colliding
  ∧ validRecord RefEngine.engine (inputValue ∅ (RawText Samples.vevent))
      Parsed.vevent (Sub 0) Parsed.event
  ∧ ∃ out tree' node',
      (updateFields RefEngine.engine (RawText Samples.vevent) Samples.colliding ∅).1
        = Return out
      ∧ forEntries RefEngine.engine Samples.colliding (Sub 0) Parsed.vevent = Return tree'
      ∧ out = stringify RefEngine.engine tree'
      ∧ deref tree' (Sub 0) = Some node'
      ∧ ¬ ∃ p, p ∈ cprops node'
               ∧ pname p = toLowerCase RefEngine.engine "SUMMARY"
               ∧ pvalues p = [JS.Str "a"].
Proof.
  split_and!.
  - apply NoDup_cons. split; [|apply NoDup_singleton].
    intros Hin%list_elem_of_singleton. discriminate.
  - left.
  - repeat split; vm_compute; reflexivity.
  - eexists _, _, _. split_and!; [vm_compute; reflexivity..|].
    intros (p & Hin & Hname & Hvalue).
    repeat (apply elem_of_cons in Hin as [->|Hin]; [simpl in *; discriminate|]).
    by apply elem_of_nil in Hin.
Qed.

(** C2, amended.  Take a record that parses and has an update target, and
    a key of the field map that does not lowercase to the empty string
    and after which no key with the same lowercase spelling and no key
    that lowercases to the empty string is enumerated.  Whenever
    [updateFields] returns, the target node of the tree that is
    serialised holds a property with the lowercased key as its name and
    the given string, unchanged, as its only value.  If the target had
    properties of that name, the first of them is the one that carries
    the value, with its name, parameters and type, and the later ones are
    as they were; otherwise the property is new, without parameters.  The
    names of the properties that were there keep their positions, and
    what is appended are lowercased keys of the map that were not there.
    On an engine that reads every value the call returns. *)
Theorem updateFields_upserts E c fields h tree r node before key value after :
  validRecord E (inputValue h c) tree r node →
  fields = before ++ (key, value) :: after →
  toLowerCase E key ≠ "" →
  (∀ kv, kv ∈ after →
     toLowerCase E kv.1 ≠ toLowerCase E key ∧ toLowerCase E kv.1 ≠ "") →
  (acceptsAll E → ∃ out, (updateFields E c fields h).1 = Return out)
  ∧ ∀ out, (updateFields E c fields h).1 = Return out →
      ∃ tree' node',
        forEntries E fields r tree = Return tree'
        ∧ out = stringify E tree'
        ∧ deref tree' r = Some node'
        ∧ (∃ p, p ∈ cprops node'
                ∧ pname p = toLowerCase E key ∧ pvalues p = [JS.Str value])
        ∧ named (toLowerCase E key) (cprops node') =
            match named (toLowerCase E key) (cprops node) with
            | [] => [created E (toLowerCase E key) value]
            | p :: later => replaced p value :: later
            end
        ∧ ∃ extra,
            pname <$> cprops node' = (pname <$> cprops node) ++ extra
            ∧ ∀ name, name ∈ extra →
                name ∈ loweredKeys E fields ∧ name ∉ pname <$> cprops node.
Proof.
  intros (Hv & Hparse & Htarget & Hnode) -> Hkey Hafter.
  rewrite updateFields_run. simpl. unfold outcomeOn. rewrite Hv, Hparse, Htarget.
  unfold mbind, Outcome_bind, mret, Outcome_ret. simpl.
  rewrite (forEntries_node E _ r tree node Hnode).
  unfold Outcome.map, Outcome.bind. split.
  - intros HE. destruct (upsertAll_accepts E (before ++ (key, value) :: after) node HE)
      as [node' ->]. by eexists.
  - intros out Hout.
    destruct (upsertAll E _ node) as [node'|] eqn:Hloop; [|done].
    injection Hout as <-.
    assert (Hnamed : named (toLowerCase E key) (cprops node') =
              match named (toLowerCase E key) (cprops node) with
              | [] => [created E (toLowerCase E key) value]
              | p :: later => replaced p value :: later
              end).
    { apply (upsertAll_named_last E before key value after node node' Hloop Hkey).
      - intros kv Hkv. by apply Hafter.
      - intros kv Hkv. by apply Hafter. }
    exists (store tree r node'), node'. split_and!; [done|done| | |done|].
    + by eapply deref_store.
    + assert (∃ p, p ∈ named (toLowerCase E key) (cprops node')
                   ∧ pvalues p = [JS.Str value]) as (p & Hin & Hp).
      { rewrite Hnamed. destruct (named _ (cprops node)) as [|q later];
          eexists; (split; [left|done]). }
      apply list_elem_of_filter in Hin as [Hname Hin]. eauto.
    + apply (upsertAll_names E _ _ _ Hloop).
Qed.

Lemma updateFields_upserts_witness :
  validRecord RefEngine.engine (inputValue ∅ (RawText Samples.vevent))
    Parsed.vevent (Sub 0) Parsed.event
  ∧ Samples.collidingAndNew = [("SUMMARY", "a")] ++ ("summary", "b") :: [("X-NEW", "c")]
  ∧ toLowerCase RefEngine.engine "summary" ≠ ""
  ∧ (∀ kv, kv ∈ [("X-NEW", "c")] →
       toLowerCase RefEngine.engine kv.1 ≠ toLowerCase RefEngine.engine "summary"
       ∧ toLowerCase RefEngine.engine kv.1 ≠ "")
  ∧ (acceptsAll RefEngine.engine →
     ∃ out, (updateFields RefEngine.engine (RawText Samples.vevent)
               Samples.collidingAndNew ∅).1 = Return out)
  ∧ ∀ out, (updateFields RefEngine.engine (RawText Samples.vevent)
              Samples.collidingAndNew ∅).1 = Return out →
      ∃ tree' node',
        forEntries RefEngine.engine Samples.collidingAndNew (Sub 0) Parsed.vevent
        = Return tree'
        ∧ out = stringify RefEngine.engine tree'
        ∧ deref tree' (Sub 0) = Some node'
        ∧ (∃ p, p ∈ cprops node'
                ∧ pname p = toLowerCase RefEngine.engine "summary"
                ∧ pvalues p = [JS.Str "b"])
        ∧ named (toLowerCase RefEngine.engine "summary") (cprops node') =
            match named (toLowerCase RefEngine.engine "summary") (cprops Parsed.event) with
            | [] => [created RefEngine.engine (toLowerCase RefEngine.engine "summary") "b"]
            | p :: later => replaced p "b" :: later
            end
        ∧ ∃ extra,
            pname <$> cprops node' = (pname <$> cprops Parsed.event) ++ extra
            ∧ ∀ name, name ∈ extra →
                name ∈ loweredKeys RefEngine.engine Samples.collidingAndNew
                ∧ name ∉ pname <$> cprops Parsed.event.
Proof.
  assert (Hvalid : validRecord RefEngine.engine (inputValue ∅ (RawText Samples.vevent))
                     Parsed.vevent (Sub 0) Parsed.event).
  { repeat split; vm_compute; reflexivity. }
  assert (Hkey : toLowerCase RefEngine.engine "summary" ≠ "") by discriminate.
  assert (Hlast : ∀ kv, kv ∈ [("X-NEW", "c")] →
                    toLowerCase RefEngine.engine kv.1 ≠ toLowerCase RefEngine.engine "summary"
                    ∧ toLowerCase RefEngine.engine kv.1 ≠ "").
  { intros kv Hkv%list_elem_of_singleton. subst kv. simpl. split; discriminate. }
  split; [exact Hvalid|]. split; [reflexivity|]. split; [exact Hkey|]. split; [exact Hlast|].
  exact (updateFields_upserts RefEngine.engine (RawText Samples.vevent)
           Samples.collidingAndNew ∅
           Parsed.vevent (Sub 0) Parsed.event
           [("SUMMARY", "a")] "summary" "b" [("X-NEW", "c")] Hvalid eq_refl Hkey Hlast).
Defined.

(** ** The update target *)

(** C3.  Target selection.  Take a record that parses to a tree whose root
    is named [vcalendar].  If the root has an event among its immediate
    sub-components, the first event is the update target; if it has none
    but has a task, the first task; if it has neither but has a journal,
    the first journal: the upserts run on that node and are written back
    in its place.  If it has none of the three, the call throws the
    NoUpdatableComponent error and returns nothing, whatever the field
    map. *)
Theorem updateFields_selects E c fields h (tree : Component) :
  JS.truthy (inputValue h c) = true →
  parse E (inputValue h c) = Return tree →
  cname tree = "vcalendar" →
  let result := (updateFields E c fields h).1 in
  let subs := csubs tree in
  (∀ i, firstOfType "vevent" subs i → selects E tree fields result i)
  ∧ (noneOfType "vevent" subs →
     ∀ i, firstOfType "vtodo" subs i → selects E tree fields result i)
  ∧ (noneOfType "vevent" subs → noneOfType "vtodo" subs →
     ∀ i, firstOfType "vjournal" subs i → selects E tree fields result i)
  ∧ (noneOfType "vevent" subs → noneOfType "vtodo" subs → noneOfType "vjournal" subs →
     result = Throw noComponentMessage ∧ ∀ out, result ≠ Return out).
Proof.
  intros Hv Hparse Hname result subs.
  assert (Hsel : ∀ i, actualComponent tree = Return (Sub i) → selects E tree fields result i).
  { intros i Htarget. split; [done|].
    destruct (actualComponent_deref tree _ Htarget) as [node Hnode].
    exists node. split; [done|]. subst result.
    rewrite updateFields_run. simpl.
    by rewrite (outcomeOn_target E _ fields tree (Sub i) node Hv Hparse Htarget Hnode). }
  assert (Hfirst : ∀ name i, firstOfType name subs i →
                     getFirstSubcomponent tree name = Some (Sub i)).
  { intros name i Hi. apply getFirstSubcomponent_Some. eauto. }
  assert (Hnone : ∀ name, noneOfType name subs → getFirstSubcomponent tree name = None).
  { intros name Hn. by apply getFirstSubcomponent_None. }
  assert (Hroot : String.eqb (cname tree) "vcalendar" = true) by by apply String.eqb_eq.
  split_and!.
  - intros i Hi. apply Hsel. unfold actualComponent.
    by rewrite Hroot, (Hfirst _ _ Hi).
  - intros He i Hi. apply Hsel. unfold actualComponent.
    by rewrite Hroot, (Hnone _ He), (Hfirst _ _ Hi).
  - intros He Ht i Hi. apply Hsel. unfold actualComponent.
    by rewrite Hroot, (Hnone _ He), (Hnone _ Ht), (Hfirst _ _ Hi).
  - intros He Ht Hj.
    assert (result = Throw noComponentMessage) as ->; [|done].
    subst result. rewrite updateFields_run. simpl. unfold outcomeOn, actualComponent.
    by rewrite Hv, Hparse, Hroot, (Hnone _ He), (Hnone _ Ht), (Hnone _ Hj).
Qed.

Lemma updateFields_selects_witness :
  JS.truthy (inputValue ∅ (RawText Samples.mixed)) = true
  ∧ parse RefEngine.engine (inputValue ∅ (RawText Samples.mixed)) = Return Parsed.mixed
  ∧ cname Parsed.mixed = "vcalendar"
  ∧ firstOfType "vevent" (csubs Parsed.mixed) 2
  ∧ selects RefEngine.engine Parsed.mixed Samples.colliding
      (updateFields RefEngine.engine (RawText Samples.mixed) Samples.colliding ∅).1 2.
Proof.
  assert (Hfirst : firstOfType "vevent" (csubs Parsed.mixed) 2).
  { split; [by eexists|].
    intros [|[|j]] s Hj; [| |lia]; intros [= <-]; simpl; discriminate. }
  split_and!; [vm_compute; reflexivity..|done|].
  exact (proj1 (updateFields_selects RefEngine.engine (RawText Samples.mixed)
                  Samples.colliding ∅ Parsed.mixed eq_refl eq_refl eq_refl) 2 Hfirst).
Defined.

(** ** Errors *)

Lemma setValue_Throw E p value message :
  setValue E p value = Throw message →
  decorate E (mkProperty (pname p) (pparams p) (ptype p) [JS.Str value]) value
  = Throw message.
Proof.
  unfold setValue, mbind, Outcome_bind, Outcome.bind, mret, Outcome_ret.
  destruct (decorate E _ value); [done|by intros [= ->]].
Qed.

(** The loop throws what the engine threw on one of the values. *)
Lemma upsertAll_Throw E fields c message :
  upsertAll E fields c = Throw message →
  ∃ p value, decorate E p value = Throw message.
Proof.
  revert c. induction fields as [|[key value] rest IH]; intros c; [done|].
  rewrite upsertAll_cons.
  destruct (updatePropertyWithValue E c (toLowerCase E key) value) as [c1|m] eqn:Hc1.
  - apply IH.
  - simpl. intros [= ->]. revert Hc1.
    unfold updatePropertyWithValue, addPropertyWithValue, mbind, Outcome_bind, Outcome.bind.
    destruct (getFirstProperty c (toLowerCase E key)) as [[i p]|].
    + destruct (setValue E p value) eqn:Hset; [done|].
      intros [= ->]. apply setValue_Throw in Hset. eauto.
    + destruct (setValue E (newProperty E (toLowerCase E key)) value) eqn:Hset; [done|].
      intros [= ->]. apply setValue_Throw in Hset. eauto.
Qed.

Lemma truthy_rejected h c : JS.truthy (inputValue h c) = false ↔ rejected h c.
Proof.
  destruct c as [s|l]; simpl; [apply truthy_Str|].
  unfold JS.get. destruct (default ∅ (h !! l) !! "data") as [v|]; simpl.
  - apply falsy_cases.
  - done.
Qed.

(** C4, as the spec states it, fails on a wrapper whose [data] is a
    non-string that is truthy: [{ data: 42 }] passes the guard, the text
    engine is called on it, and what comes out is the parse failure. *)
Lemma invalid_input_counterexample :
  Samples.heap !! 4%positive = Some {[ "data" := JS.Number 42 ]}
  ∧ specRejected Samples.heap (Wrapper 4%positive)
  ∧ (updateFields RefEngine.engine (Wrapper 4%positive) [] Samples.heap).1 ≠ Throw invalidInputMessage
  ∧ (updateFields RefEngine.engine (Wrapper 4%positive) [] Samples.heap).1
    = Throw (parseFailurePrefix ++ "buffer.search is not a function")%string.
Proof.
  split_and!; [vm_compute; reflexivity..| |vm_compute; reflexivity].
  vm_compute. discriminate.
Qed.

(** C4, amended.  [updateFields] throws its InvalidInput error exactly when
    the value it reads from its argument is falsy: the raw record is the
    empty string, or the wrapper's [data] is absent, [undefined], [null],
    [false], [0] or the empty string.  It does so without a call to the
    engine: the outcome is the same for every engine.  The message is not
    a ParseFailure message.  (The engine is taken not to throw that very
    message out of the calls that follow the parse.) *)
Theorem updateFields_invalid_input E c fields h :
  keepsApart E →
  ((updateFields E c fields h).1 = Throw invalidInputMessage ↔ rejected h c)
  ∧ (rejected h c → ∀ E', (updateFields E' c fields h).1 = Throw invalidInputMessage)
  ∧ ∀ message, invalidInputMessage ≠ (parseFailurePrefix ++ message)%string.
Proof.
  intros HE.
  assert (Hguard : rejected h c →
                   ∀ E', (updateFields E' c fields h).1 = Throw invalidInputMessage).
  { intros Hv%truthy_rejected E'. rewrite updateFields_run. simpl.
    unfold outcomeOn. by rewrite Hv. }
  split_and!; [split; [|by auto]|done|apply invalid_not_parse_failure].
  rewrite updateFields_run. simpl. intros Hrun.
  apply truthy_rejected. destruct (JS.truthy (inputValue h c)) eqn:Hv; [|done].
  exfalso. unfold outcomeOn in Hrun. rewrite Hv in Hrun.
  destruct (parse E (inputValue h c)) as [[tree|roots]|m] eqn:Hparse; [| |discriminate].
  2: { injection Hrun as Hrun. by apply (proj2 HE roots (lowered E fields)). }
  destruct (actualComponent tree) as [r|m] eqn:Htarget.
  - destruct (actualComponent_deref tree r Htarget) as [node Hnode].
    revert Hrun. unfold mbind, Outcome_bind, mret, Outcome_ret. simpl.
    rewrite (forEntries_node E fields r tree node Hnode).
    unfold Outcome.map, Outcome.bind.
    destruct (upsertAll E fields node) as [node'|m] eqn:Hloop; [done|].
    intros [= ->]. apply upsertAll_Throw in Hloop as (p & value & Hthrow).
    by apply (proj1 HE p value).
  - revert Htarget Hrun. unfold actualComponent.
    destruct (String.eqb (cname tree) "vcalendar"); [|done].
    destruct (_ ||| _); [done|]. intros [= <-]. discriminate.
Qed.

Lemma updateFields_invalid_input_witness :
  keepsApart RefEngine.engine
  ∧ rejected Samples.heap (Wrapper 3%positive)
  ∧ (updateFields RefEngine.engine (Wrapper 3%positive) [("SUMMARY", "Test")] Samples.heap).1
    = Throw invalidInputMessage.
Proof.
  assert (HE : keepsApart RefEngine.engine).
  { split.
    - intros p value. unfold decorate. simpl. unfold RefEngine.decorate.
      destruct (_ && _); discriminate.
    - intros roots entries. unfold arrayError. simpl. unfold RefEngine.arrayError.
      assert (Hloop : ∀ second fields message,
                RefEngine.arrayLoop second fields = Some message →
                message ≠ invalidInputMessage).
      { intros second fields. induction fields as [|[name value] rest IH]; [done|].
        intros message. simpl. unfold RefEngine.decorate.
        destruct (_ && _); [intros [= <-]; discriminate|apply IH]. }
      destruct roots as [|first [|second roots]]; [by destruct entries..|].
      destruct (RefEngine.arrayLoop (cname second) entries) as [message|] eqn:Hm;
        [exact (Hloop _ _ _ Hm)|discriminate]. }
  assert (Hrej : rejected Samples.heap (Wrapper 3%positive)) by (vm_compute; exact I).
  split_and!; [exact HE|exact Hrej|].
  exact (proj2 (proj1 (updateFields_invalid_input RefEngine.engine (Wrapper 3%positive)
                         [("SUMMARY", "Test")] Samples.heap HE)) Hrej).
Defined.

(** C5.  ParseFailure.  For a non-empty text that the engine rejects with
    some message, given as the raw record or as the [data] of a wrapper,
    [updateFields] throws the ParseFailure prefix followed by that
    message.  This is no return, and it is neither the InvalidInput nor
    the NoUpdatableComponent error. *)
Theorem updateFields_parse_failure E c fields h text message :
  inputValue h c = JS.Str text →
  text ≠ "" →
  parse E (JS.Str text) = Throw message →
  let result := (updateFields E c fields h).1 in
  result = Throw (parseFailurePrefix ++ message)%string
  ∧ (∀ out, result ≠ Return out)
  ∧ result ≠ Throw invalidInputMessage
  ∧ result ≠ Throw noComponentMessage.
Proof.
  intros Hc Htext Hparse result.
  assert (result = Throw (parseFailurePrefix ++ message)%string) as ->.
  { subst result. rewrite updateFields_run. simpl. unfold outcomeOn.
    rewrite Hc, Hparse.
    destruct (JS.truthy (JS.Str text)) eqn:Hv; [done|].
    by apply truthy_Str in Hv. }
  split_and!; [done|done| |].
  - intros Heq. apply (invalid_not_parse_failure message). congruence.
  - intros Heq. apply (no_component_not_parse_failure message). congruence.
Qed.

Lemma updateFields_parse_failure_witness :
  inputValue ∅ (RawText Samples.notARecord) = JS.Str Samples.notARecord
  ∧ Samples.notARecord ≠ ""
  ∧ parse RefEngine.engine (JS.Str Samples.notARecord)
    = Throw "invalid line (no token ; or :) NOT A VALID RECORD"
  ∧ (updateFields RefEngine.engine (RawText Samples.notARecord) [("SUMMARY", "Test")] ∅).1
    = Throw (parseFailurePrefix ++ "invalid line (no token ; or :) NOT A VALID RECORD")%string.
Proof.
  assert (Htext : Samples.notARecord ≠ "") by discriminate.
  split_and!; [reflexivity|exact Htext|vm_compute; reflexivity|].
  exact (proj1 (updateFields_parse_failure RefEngine.engine (RawText Samples.notARecord)
                  [("SUMMARY", "Test")] ∅ Samples.notARecord
                  "invalid line (no token ; or :) NOT A VALID RECORD"
                  eq_refl Htext eq_refl)).
Defined.


(** ** The empty field map *)




(** ** Standalone records *)

(** C7.  Standalone root.  For a record that parses to a tree whose root
    is not named [vcalendar], whatever the name is, the root itself is the
    update target: the call is the loop of upserts run on the root,
    followed by the serialisation.  No check of the function turns such a
    record away: with the empty map, and on an engine that reads every
    value with any map, the call returns. *)
Theorem updateFields_standalone E c fields h (tree : Component) :
  JS.truthy (inputValue h c) = true →
  parse E (inputValue h c) = Return tree →
  cname tree ≠ "vcalendar" →
  actualComponent tree = Return Root
  ∧ (updateFields E c fields h).1 = Outcome.map (stringify E) (upsertAll E fields tree)
  ∧ (updateFields E c [] h).1 = Return (stringify E tree)
  ∧ (acceptsAll E → ∃ out, (updateFields E c fields h).1 = Return out).
Proof.
  intros Hv Hparse Hname.
  assert (Htarget : actualComponent tree = Return Root).
  { unfold actualComponent.
    destruct (String.eqb (cname tree) "vcalendar") eqn:Heq; [|done].
    by apply String.eqb_eq in Heq. }
  assert (Hrun : ∀ fields', (updateFields E c fields' h).1
                            = Outcome.map (stringify E) (upsertAll E fields' tree)).
  { intros fields'. rewrite updateFields_run. simpl.
    by rewrite (outcomeOn_target E _ fields' tree Root tree Hv Hparse Htarget eq_refl). }
  split_and!; [done|apply Hrun|by rewrite Hrun|].
  intros HE. rewrite Hrun. destruct (upsertAll_accepts E fields tree HE) as [tree' ->].
  by eexists.
Qed.

Lemma updateFields_standalone_witness :
  JS.truthy (inputValue ∅ (RawText Samples.vcard)) = true
  ∧ parse RefEngine.engine (inputValue ∅ (RawText Samples.vcard)) = Return Parsed.vcard
  ∧ cname Parsed.vcard ≠ "vcalendar"
  ∧ actualComponent Parsed.vcard = Return Root
  ∧ (updateFields RefEngine.engine (RawText Samples.vcard) [("FN", "Jane Doe")] ∅).1
    = Outcome.map (stringify RefEngine.engine)
        (upsertAll RefEngine.engine [("FN", "Jane Doe")] Parsed.vcard).
Proof.
  assert (Hname : cname Parsed.vcard ≠ "vcalendar") by discriminate.
  split_and!; [vm_compute; reflexivity..|exact Hname| |].
  - exact (proj1 (updateFields_standalone RefEngine.engine (RawText Samples.vcard)
                    [("FN", "Jane Doe")] ∅ Parsed.vcard eq_refl eq_refl Hname)).
  - exact (proj1 (proj2 (updateFields_standalone RefEngine.engine (RawText Samples.vcard)
                           [("FN", "Jane Doe")] ∅ Parsed.vcard eq_refl eq_refl Hname))).
Defined.

(** ** The caller's objects *)

(** C8.  Non-mutation.  A call of [updateFields] leaves the heap as it
    found it, whether it returns or throws: the wrapper object, its [data]
    field and every other object of the caller read the same after the
    call as before.  (A raw record is a string, which nothing can
    change.) *)
Theorem updateFields_leaves_input E c fields h :
  (updateFields E c fields h).2 = h
  ∧ ∀ l, (updateFields E c fields h).2 !! l = h !! l.
Proof.
  assert (Hro : M.readOnly (updateFields E c fields)).
  { unfold updateFields. apply readOnly_bind; [apply readOnly_icalString|].
    intros v. destruct (negb (JS.truthy v)); [apply readOnly_throw|].
    apply readOnly_bind.
    { apply readOnly_tryCatch; [apply readOnly_lift|]. intros m. apply readOnly_throw. }
    intros [component|roots]; [|apply readOnly_throw].
    apply readOnly_bind; [apply readOnly_lift|].
    intros target. apply readOnly_bind; [apply readOnly_lift|].
    intros component'. apply readOnly_ret. }
  split; [apply Hro|]. intros l. by rewrite Hro.
Qed.

(** C9.  Extra wrapper fields.  Two wrapper objects whose [data] fields
    read the same give the same outcome under every field map, whatever
    else the objects hold, in whatever heaps.  When [data] is a text, the
    outcome is that of the call on the text alone: a returned value is
    the engine's serialisation, a string. *)
Theorem updateFields_ignores_extra_fields E fields h1 h2 l1 l2
    (o1 o2 : gmap string JS.Value) :
  h1 !! l1 = Some o1 →
  h2 !! l2 = Some o2 →
  o1 !! "data" = o2 !! "data" →
  (updateFields E (Wrapper l1) fields h1).1 = (updateFields E (Wrapper l2) fields h2).1
  ∧ ∀ text, o1 !! "data" = Some (JS.Str text) →
      (updateFields E (Wrapper l1) fields h1).1 = (updateFields E (RawText text) fields ∅).1.
Proof.
  intros H1 H2 Hdata. split.
  - rewrite !updateFields_run. simpl. rewrite H1, H2. simpl.
    unfold JS.get. by rewrite Hdata.
  - intros text Htext. rewrite !updateFields_run. simpl. rewrite H1. simpl.
    unfold JS.get. by rewrite Htext.
Qed.

Lemma updateFields_ignores_extra_fields_witness :
  Samples.heap !! 1%positive
  = Some {[ "data" := JS.Str Samples.vevent; "etag" := JS.Str "abc123";
            "url" := JS.Str "https://example.com/calendar/event.ics" ]}
  ∧ Samples.heap !! 2%positive
    = Some {[ "data" := JS.Str Samples.vevent; "etag" := JS.Str "def456";
              "url" := JS.Str "https://example.org/other.ics" ]}
  ∧ (updateFields RefEngine.engine (Wrapper 1%positive) Samples.colliding Samples.heap).1
    = (updateFields RefEngine.engine (Wrapper 2%positive) Samples.colliding Samples.heap).1.
Proof.
  split; [vm_compute; reflexivity|]. split; [vm_compute; reflexivity|].
  refine (proj1 (updateFields_ignores_extra_fields RefEngine.engine Samples.colliding
                   Samples.heap Samples.heap 1%positive 2%positive _ _ _ _ _)).
  - vm_compute; reflexivity.
  - vm_compute; reflexivity.
  - vm_compute; reflexivity.
Defined.


(** ** Keys that differ in letter case *)




(** * Further properties of [updateFields] *)

(** ** Keys are read without regard to letter case *)

Lemma forEntries_lowered E fields fields' r root :
  lowered E fields = lowered E fields' →
  forEntries E fields r root = forEntries E fields' r root.
Proof.
  revert fields' root.
  induction fields as [|[key value] rest IH]; intros [|[key' value'] rest'] root;
    [done|done|done|].
  unfold lowered. rewrite !fmap_cons. simpl. intros [= Hkey Hvalue Hrest].
  rewrite Hkey, Hvalue. unfold mbind, Outcome_bind.
  destruct (updateThrough E root r (toLowerCase E key') value'); simpl; [|done].
  by apply IH.
Qed.

(** X1.  Two field maps whose entries agree, in enumeration order, once
    the keys are lowercased give the same outcome and leave the same
    heap: a key may be spelled in any letter case. *)
Theorem updateFields_key_case E c fields fields' h :
  lowered E fields = lowered E fields' →
  updateFields E c fields h = updateFields E c fields' h.
Proof.
  intros Hsame. rewrite !updateFields_run. f_equal. unfold outcomeOn.
  destruct (JS.truthy (inputValue h c)); [|done].
  destruct (parse E (inputValue h c)) as [[tree|roots]|]; [|by rewrite Hsame|done].
  destruct (actualComponent tree) as [r|]; simpl; [|done].
  by rewrite (forEntries_lowered E fields fields' r tree Hsame).
Qed.

Lemma updateFields_key_case_witness :
  lowered RefEngine.engine [("SUMMARY", "Updated"); ("x-Custom", "1")]
  = lowered RefEngine.engine [("Summary", "Updated"); ("X-CUSTOM", "1")]
  ∧ updateFields RefEngine.engine (RawText Samples.vevent)
      [("SUMMARY", "Updated"); ("x-Custom", "1")] ∅
    = updateFields RefEngine.engine (RawText Samples.vevent)
        [("Summary", "Updated"); ("X-CUSTOM", "1")] ∅.
Proof.
  split; [reflexivity|].
  exact (updateFields_key_case RefEngine.engine (RawText Samples.vevent)
           [("SUMMARY", "Updated"); ("x-Custom", "1")]
           [("Summary", "Updated"); ("X-CUSTOM", "1")] ∅ eq_refl).
Defined.

(** ** When the call returns *)

Section Acceptance.
Variable E : Engine.

(** An upsert returns exactly when the engine reads the value in the
    property it is written to. *)
Lemma upsert_returns_iff c name value :
  (∃ c', updatePropertyWithValue E c name value = Return c')
  ↔ decorate E (written E c name value) value = Return tt.
Proof.
  unfold updatePropertyWithValue, addPropertyWithValue, setValue, written, newProperty,
    replaced, created.
  unfold mbind, Outcome_bind, Outcome.bind, mret, Outcome_ret.
  destruct (getFirstProperty c name) as [[i p]|]; simpl;
    (destruct (decorate E _ value) as [[]|m]; split;
       [by eauto|by eauto|by intros [? ?]|done]).
Qed.


(** What an entry writes is the same at any later point of the loop,
    unless its key is empty and the node had no property to start with. *)
Lemma upsertAll_written_later fields c c' name value :
  upsertAll E fields c = Return c' →
  name ≠ "" ∨ cprops c ≠ [] →
  written E c' name value = written E c name value.
Proof.
  intros Hrun Hcase.
  destruct (upsertAll_shapes E _ _ _ Hrun) as (extra & Hshapes & Hextra).
  destruct (upsertAll_names E _ _ _ Hrun) as (extraN & Hnames & _).
  unfold written at 2.
  destruct (getFirstProperty c name) as [[i p]|] eqn:Hfind.
  - pose proof (getFirstProperty_index c' name) as Hi.
    pose proof (getFirstProperty_index c name) as Hi0. rewrite Hfind in Hi0. simpl in Hi0.
    rewrite Hnames, (targetIndex_app _ _ _ i (eq_sym Hi0)) in Hi.
    unfold written.
    destruct (getFirstProperty c' name) as [[i' q]|] eqn:Hfind'; [|done].
    injection Hi as ->.
    apply getFirstProperty_lookup in Hfind, Hfind'.
    apply replaced_shape; [|done].
    assert (Hq : (shape <$> cprops c') !! i = Some (shape q))
      by by rewrite list_lookup_fmap, Hfind'.
    rewrite Hshapes, lookup_app_l in Hq.
    + rewrite list_lookup_fmap, Hfind in Hq. simpl in Hq.
      assert (Hs : shape p = shape q) by congruence.
      unfold shape in *. simpl. congruence.
    + rewrite length_fmap. by eapply lookup_lt_Some.
  - assert (Hname : name ≠ "").
    { destruct Hcase as [|Hprops]; [done|]. intros ->. apply Hprops.
      unfold getFirstProperty in Hfind. simpl in Hfind. by destruct (cprops c). }
    pose proof (getFirstProperty_None _ _ Hfind) as Habsent.
    unfold written.
    destruct (getFirstProperty c' name) as [[j q]|] eqn:Hfind'; [|done].
    assert (Hq : pname q = name).
    { rewrite (getFirstProperty_name c' name Hname) in Hfind'.
      by apply list_find_Some in Hfind' as (_ & Hq & _). }
    apply getFirstProperty_lookup in Hfind'.
    assert (Hin : shape q ∈ shape <$> cprops c').
    { apply list_elem_of_fmap_2. by eapply list_elem_of_lookup_2. }
    rewrite Hshapes in Hin. apply elem_of_app in Hin as [Hin|Hin].
    + exfalso. apply Habsent. apply list_elem_of_fmap in Hin as (p & Hp & Hin).
      apply list_elem_of_fmap. exists p. split; [|done].
      unfold shape in Hp. congruence.
    + destruct (Hextra _ Hin) as (name' & _ & Hs).
      unfold shape in Hs. injection Hs as Hn Hpar Hty.
      destruct q. unfold replaced, created. simpl in *. congruence.
Qed.

(** The loop returns exactly when the engine reads every value in the
    property it is written to on the node the loop starts from. *)
Lemma upsertAll_returns_iff fields c :
  noEmptyKey E fields ∨ cprops c ≠ [] →
  (∃ c', upsertAll E fields c = Return c') ↔ Forall (accepted E c) fields.
Proof.
  revert c. induction fields as [|[key value] rest IH]; intros c Hcase.
  - split; [by constructor|by eexists].
  - assert (Hstep : ∀ c1, updatePropertyWithValue E c (toLowerCase E key) value = Return c1 →
                      (noEmptyKey E rest ∨ cprops c1 ≠ [])
                      ∧ (Forall (accepted E c1) rest ↔ Forall (accepted E c) rest)).
    { intros c1 Hc1.
      assert (Hone : upsertAll E [(key, value)] c = Return c1).
      { rewrite upsertAll_cons, Hc1. done. }
      split.
      - destruct Hcase as [[_ Hne]%noEmptyKey_cons|Hprops]; [by left|right].
        destruct (upsertAll_names E _ _ _ Hone) as (extra & Hnames & _).
        intros Hnil. rewrite Hnil in Hnames. destruct (cprops c); done.
      - assert (Hkv : ∀ kv, kv ∈ rest → accepted E c1 kv ↔ accepted E c kv).
        { intros kv Hkv. unfold accepted.
          rewrite (upsertAll_written_later _ _ _ (toLowerCase E kv.1) kv.2 Hone); [done|].
          destruct Hcase as [[_ Hne]%noEmptyKey_cons|Hprops]; [left|by right].
          by apply Hne. }
        rewrite !Forall_forall. split; intros Hall kv Hin; apply (Hkv kv Hin); by apply Hall. }
    rewrite upsertAll_cons, Forall_cons. split.
    + intros [c' Hrun].
      destruct (updatePropertyWithValue E c (toLowerCase E key) value)
        as [c1|] eqn:Hc1; [|done]. simpl in Hrun.
      destruct (Hstep c1 eq_refl) as [Hcase1 Hall]. split.
      * apply upsert_returns_iff. eauto.
      * apply Hall. apply (IH c1 Hcase1). eauto.
    + intros [Hhead Hrest].
      apply upsert_returns_iff in Hhead as [c1 Hc1]. simpl in Hc1. rewrite Hc1. simpl.
      destruct (Hstep c1 Hc1) as [Hcase1 Hall].
      apply (IH c1 Hcase1). by apply Hall.
Qed.


End Acceptance.





(** ** The shape of the tree after the call *)

(** X4.  Whenever the call returns, the tree it serialised has the root
    name of the parsed tree and sub-components of the same names in the
    same places, and step 3 run on it picks the same target: an update
    adds or removes no component and never moves the target. *)
Theorem updateFields_keeps_structure E c fields h tree r node out :
  validRecord E (inputValue h c) tree r node →
  (updateFields E c fields h).1 = Return out →
  ∃ tree',
    forEntries E fields r tree = Return tree'
    ∧ out = stringify E tree'
    ∧ cname tree' = cname tree
    ∧ cname <$> csubs tree' = cname <$> csubs tree
    ∧ actualComponent tree' = Return r.
Proof.
  intros (Hv & Hparse & Htarget & Hnode).
  rewrite updateFields_run. simpl. unfold outcomeOn.
  rewrite Hv, Hparse, Htarget. unfold mbind, Outcome_bind, mret, Outcome_ret. simpl.
  destruct (forEntries E fields r tree) as [tree'|] eqn:Hloop; [|done].
  intros [= <-]. exists tree'.
  destruct (forEntries_Return E fields r tree node tree' Htarget Hnode Hloop)
    as (node' & _ & _ & _ & Hroot & Hnames & Hsame).
  done.
Qed.

Lemma updateFields_keeps_structure_witness :
  validRecord RefEngine.engine (inputValue ∅ (RawText Samples.mixed))
    Parsed.mixed (Sub 2) Parsed.firstEvent
  ∧ ∃ out tree',
      (updateFields RefEngine.engine (RawText Samples.mixed) Samples.collidingAndNew ∅).1
      = Return out
      ∧ forEntries RefEngine.engine Samples.collidingAndNew (Sub 2) Parsed.mixed = Return tree'
      ∧ out = stringify RefEngine.engine tree'
      ∧ cname tree' = cname Parsed.mixed
      ∧ cname <$> csubs tree' = cname <$> csubs Parsed.mixed
      ∧ actualComponent tree' = Return (Sub 2).
Proof.
  assert (Hvalid : validRecord RefEngine.engine (inputValue ∅ (RawText Samples.mixed))
                     Parsed.mixed (Sub 2) Parsed.firstEvent).
  { repeat split; vm_compute; reflexivity. }
  split; [exact Hvalid|].
  assert (Hrun : ∃ out, (updateFields RefEngine.engine (RawText Samples.mixed)
                           Samples.collidingAndNew ∅).1 = Return out).
  { eexists. vm_compute. reflexivity. }
  destruct Hrun as [out Hrun]. exists out.
  destruct (updateFields_keeps_structure RefEngine.engine (RawText Samples.mixed)
              Samples.collidingAndNew ∅ Parsed.mixed (Sub 2) Parsed.firstEvent out
              Hvalid Hrun) as (tree' & Hloop & Hout & Hroot & Hnames & Hsame).
  exists tree'. done.
Defined.

(** ** One call after another *)

(** X5.  Composition.  Let a first call on a valid record run the loop to
    the tree [tree1], and let the engine read its own serialisation of
    [tree1], a non-empty text, back as [tree1].  Then the first call
    returns that text, and a second call given that text (raw, or as the
    [data] of a wrapper) with a second field map has the outcome of one
    call on the original record with the entries of the first map
    followed by those of the second. *)
Theorem updateFields_composes E c fields1 fields2 h tree r node tree1 c2 h2 :
  validRecord E (inputValue h c) tree r node →
  forEntries E fields1 r tree = Return tree1 →
  parse E (JS.Str (stringify E tree1)) = Return tree1 →
  stringify E tree1 ≠ "" →
  inputValue h2 c2 = JS.Str (stringify E tree1) →
  (updateFields E c fields1 h).1 = Return (stringify E tree1)
  ∧ (updateFields E c2 fields2 h2).1 = (updateFields E c (fields1 ++ fields2) h).1.
Proof.
  intros (Hv & Hparse & Htarget & Hnode) Hloop Hread Hne Hc2.
  destruct (forEntries_Return E fields1 r tree node tree1 Htarget Hnode Hloop)
    as (node1 & _ & _ & _ & _ & _ & Hsame).
  rewrite !updateFields_run. simpl. rewrite Hc2.
  rewrite (outcomeOn_reread E fields2 r tree1 Hread Hne Hsame).
  unfold outcomeOn. rewrite Hv, Hparse, Htarget.
  unfold mbind, Outcome_bind, mret, Outcome_ret. simpl.
  rewrite forEntries_app, Hloop. simpl. split; [done|].
  unfold Outcome.map, Outcome.bind. by destruct (forEntries E fields2 r tree1).
Qed.

Lemma updateFields_composes_witness :
  validRecord RefEngine.engine (inputValue ∅ (RawText Samples.vevent))
    Parsed.vevent (Sub 0) Parsed.event
  ∧ forEntries RefEngine.engine [("SUMMARY", "Updated")] (Sub 0) Parsed.vevent
    = Return updatedEvent
  ∧ parse RefEngine.engine (JS.Str (stringify RefEngine.engine updatedEvent))
    = Return updatedEvent
  ∧ stringify RefEngine.engine updatedEvent ≠ ""
  ∧ (updateFields RefEngine.engine (RawText Samples.vevent) [("SUMMARY", "Updated")] ∅).1
    = Return (stringify RefEngine.engine updatedEvent)
  ∧ (updateFields RefEngine.engine (RawText (stringify RefEngine.engine updatedEvent))
       [("LOCATION", "Remote"); ("X-NEW", "1")] ∅).1
    = (updateFields RefEngine.engine (RawText Samples.vevent)
         ([("SUMMARY", "Updated")] ++ [("LOCATION", "Remote"); ("X-NEW", "1")]) ∅).1.
Proof.
  assert (Hvalid : validRecord RefEngine.engine (inputValue ∅ (RawText Samples.vevent))
                     Parsed.vevent (Sub 0) Parsed.event).
  { repeat split; vm_compute; reflexivity. }
  assert (Hloop : forEntries RefEngine.engine [("SUMMARY", "Updated")] (Sub 0) Parsed.vevent
                  = Return updatedEvent) by (vm_compute; reflexivity).
  assert (Hread : parse RefEngine.engine (JS.Str (stringify RefEngine.engine updatedEvent))
                  = Return updatedEvent) by (vm_compute; reflexivity).
  assert (Hne : stringify RefEngine.engine updatedEvent ≠ "") by (vm_compute; discriminate).
  split; [exact Hvalid|]. split; [exact Hloop|]. split; [exact Hread|]. split; [exact Hne|].
  exact (updateFields_composes RefEngine.engine (RawText Samples.vevent)
           [("SUMMARY", "Updated")] [("LOCATION", "Remote"); ("X-NEW", "1")] ∅
           Parsed.vevent (Sub 0) Parsed.event updatedEvent
           (RawText (stringify RefEngine.engine updatedEvent)) ∅
           Hvalid Hloop Hread Hne eq_refl).
Defined.


(** ** The same map again *)

Section Settled.
Variable E : Engine.

(** An upsert of a settled entry changes nothing. *)
Lemma upsert_settled c kv :
  settled E c kv →
  updatePropertyWithValue E c (toLowerCase E kv.1) kv.2 = Return c.
Proof.
  intros (i & p & Hfind & Hvalue & Hread).
  pose proof (getFirstProperty_lookup c _ i p Hfind) as Hi.
  unfold updatePropertyWithValue, setValue. rewrite Hfind.
  rewrite <- Hvalue.
  replace (mkProperty (pname p) (pparams p) (ptype p) (pvalues p)) with p by by destruct p.
  rewrite Hread. unfold mbind, Outcome_bind, mret, Outcome_ret. simpl.
  rewrite list_insert_id by done. by destruct c.
Qed.

Lemma upsertAll_settled fields c :
  Forall (settled E c) fields → upsertAll E fields c = Return c.
Proof.
  induction 1 as [|[key value] rest Hhead _ IH]; [done|].
  pose proof (upsert_settled c (key, value) Hhead) as Hsame. simpl in Hsame.
  by rewrite upsertAll_cons, Hsame.
Qed.

Lemma loweredKeys_split before kv after :
  NoDup (loweredKeys E (before ++ kv :: after)) →
  ∀ kv', kv' ∈ after → toLowerCase E kv'.1 ≠ toLowerCase E kv.1.
Proof.
  unfold loweredKeys. rewrite fmap_app, fmap_cons.
  intros (_ & _ & (Hnotin & _)%NoDup_cons)%NoDup_app kv' Hin Heq.
  apply Hnotin. rewrite <- Heq.
  by apply (list_elem_of_fmap_2 (λ kv, toLowerCase E kv.1)).
Qed.

End Settled.

Section Again.
Variable E : Engine.




End Again.



(** ** What is appended *)

Section Appended.
Variable E : Engine.

Lemma named_app name (l1 l2 : list Property) :
  named name (l1 ++ l2) = named name l1 ++ named name l2.
Proof. apply filter_app. Qed.

Lemma named_absent name (props : list Property) :
  name ∉ pname <$> props → named name props = [].
Proof.
  intros Habsent. apply filter_none, Forall_forall. intros p Hin Hname.
  apply Habsent. rewrite <- Hname. by apply list_elem_of_fmap_2.
Qed.

(** Two property lists with the same names in the same places, and for
    every name the same properties of that name in order, are equal. *)
Lemma names_named_eq (l1 l2 : list Property) :
  pname <$> l1 = pname <$> l2 →
  (∀ name, named name l1 = named name l2) →
  l1 = l2.
Proof.
  revert l2. induction l1 as [|p1 l1 IH]; intros [|p2 l2] Hnames Hnamed; try done.
  injection Hnames as Hname Hrest.
  assert (Hhead : p1 = p2 ∧ named (pname p1) l1 = named (pname p1) l2).
  { specialize (Hnamed (pname p1)). unfold named in Hnamed.
    rewrite !filter_cons_True in Hnamed by done. by injection Hnamed. }
  destruct Hhead as [<- Hhead]. f_equal. apply IH; [done|].
  intros name. destruct (decide (pname p1 = name)) as [<-|Hne]; [done|].
  specialize (Hnamed name). unfold named in Hnamed.
  by rewrite !filter_cons_False in Hnamed by done.
Qed.

End Appended.

(** X7.  Whenever the call returns on a valid record, the names of the
    properties the target had stand where they stood, followed by the
    appended names, which are lowercased keys the target had no property
    for: the number of properties grows by the number of appended names
    and no property is removed or moved.  When no key lowercases to the
    empty string, the appended names are exactly the lowercased keys the
    target had no property for, each once. *)
Theorem updateFields_appends E c fields h tree r node out :
  validRecord E (inputValue h c) tree r node →
  (updateFields E c fields h).1 = Return out →
  ∃ tree' node' extra,
    forEntries E fields r tree = Return tree'
    ∧ out = stringify E tree'
    ∧ deref tree' r = Some node'
    ∧ pname <$> cprops node' = (pname <$> cprops node) ++ extra
    ∧ length (cprops node') = length (cprops node) + length extra
    ∧ (∀ name, name ∈ extra → name ∈ loweredKeys E fields ∧ name ∉ pname <$> cprops node)
    ∧ (noEmptyKey E fields →
       NoDup extra
       ∧ ∀ name, name ∈ extra ↔ name ∈ loweredKeys E fields ∧ name ∉ pname <$> cprops node).
Proof.
  intros Hvalid Hrun. pose proof Hvalid as (Hv & Hparse & Htarget & Hnode).
  rewrite updateFields_run in Hrun. simpl in Hrun. unfold outcomeOn in Hrun.
  rewrite Hv, Hparse, Htarget in Hrun.
  unfold mbind, Outcome_bind, mret, Outcome_ret in Hrun. simpl in Hrun.
  destruct (forEntries E fields r tree) as [tree'|] eqn:Hloop; [|done].
  injection Hrun as <-.
  destruct (forEntries_Return E fields r tree node tree' Htarget Hnode Hloop)
    as (node' & Hnode' & _ & Hderef & _).
  destruct (upsertAll_names E fields node node' Hnode') as (extra & Hnames & Hextra).
  exists tree', node', extra. split_and!; try done.
  - rewrite <- (length_fmap pname (cprops node')), Hnames, length_app, length_fmap. done.
  - intros Hne.
    destruct (upsertAll_names_exact E fields node node' Hnode' Hne)
      as (extra' & Hnames' & Hnodup & Hexact).
    rewrite Hnames in Hnames'. apply app_inv_head in Hnames' as <-. done.
Qed.

Lemma updateFields_appends_witness :
  validRecord RefEngine.engine (inputValue ∅ (RawText Samples.vevent))
    Parsed.vevent (Sub 0) Parsed.event
  ∧ ∃ out tree' node' extra,
      (updateFields RefEngine.engine (RawText Samples.vevent) Samples.collidingAndNew ∅).1
      = Return out
      ∧ forEntries RefEngine.engine Samples.collidingAndNew (Sub 0) Parsed.vevent
        = Return tree'
      ∧ out = stringify RefEngine.engine tree'
      ∧ deref tree' (Sub 0) = Some node'
      ∧ pname <$> cprops node' = (pname <$> cprops Parsed.event) ++ extra
      ∧ length (cprops node') = length (cprops Parsed.event) + length extra.
Proof.
  assert (Hvalid : validRecord RefEngine.engine (inputValue ∅ (RawText Samples.vevent))
                     Parsed.vevent (Sub 0) Parsed.event).
  { repeat split; vm_compute; reflexivity. }
  split; [exact Hvalid|].
  assert (Hrun : ∃ out, (updateFields RefEngine.engine (RawText Samples.vevent)
                           Samples.collidingAndNew ∅).1 = Return out).
  { eexists. vm_compute. reflexivity. }
  destruct Hrun as [out Hrun]. exists out.
  destruct (updateFields_appends RefEngine.engine (RawText Samples.vevent)
              Samples.collidingAndNew ∅ Parsed.vevent (Sub 0) Parsed.event out
              Hvalid Hrun)
    as (tree' & node' & extra & Hloop & Hout & Hderef & Hnames & Hlen & _).
  exists tree', node', extra. done.
Defined.

(** ** The order of the entries *)

Section Order.
Variable E : Engine.

Lemma loweredKeys_perm fields fields' :
  fields ≡ₚ fields' → loweredKeys E fields ≡ₚ loweredKeys E fields'.
Proof. intros Hperm. unfold loweredKeys. by rewrite Hperm. Qed.

Lemma noEmptyKey_perm fields fields' :
  fields ≡ₚ fields' → noEmptyKey E fields → noEmptyKey E fields'.
Proof. intros Hperm Hne kv Hkv. apply Hne. by rewrite Hperm. Qed.

(** With no two keys equal up to letter case and none empty, the
    properties of every name come out the same under any order of the
    entries. *)
Lemma upsertAll_perm_named fields fields' c c1 c2 name :
  fields ≡ₚ fields' →
  NoDup (loweredKeys E fields) →
  noEmptyKey E fields →
  upsertAll E fields c = Return c1 →
  upsertAll E fields' c = Return c2 →
  named name (cprops c1) = named name (cprops c2).
Proof.
  intros Hperm Hkeys Hne Hrun1 Hrun2.
  assert (Hkeys' : NoDup (loweredKeys E fields')).
  { by rewrite <- (loweredKeys_perm _ _ Hperm). }
  pose proof (noEmptyKey_perm _ _ Hperm Hne) as Hne'.
  destruct (decide (name ∈ loweredKeys E fields)) as [Hin|Hout].
  - apply list_elem_of_fmap in Hin as ([key value] & -> & Hin). simpl.
    assert (Hin' : (key, value) ∈ fields') by by rewrite <- Hperm.
    assert (Hkey : toLowerCase E key ≠ "") by exact (Hne (key, value) Hin).
    apply list_elem_of_split in Hin as (before & after & ->).
    apply list_elem_of_split in Hin' as (before' & after' & ->).
    apply noEmptyKey_app in Hne as [_ [_ Hafter]%noEmptyKey_cons].
    apply noEmptyKey_app in Hne' as [_ [_ Hafter']%noEmptyKey_cons].
    rewrite (upsertAll_named_last E before key value after c c1 Hrun1 Hkey Hafter
               (loweredKeys_split E before (key, value) after Hkeys)).
    by rewrite (upsertAll_named_last E before' key value after' c c2 Hrun2 Hkey Hafter'
                  (loweredKeys_split E before' (key, value) after' Hkeys')).
  - rewrite (upsertAll_named_other E name fields c c1 Hrun1 Hne).
    + rewrite (upsertAll_named_other E name fields' c c2 Hrun2 Hne'); [done|].
      intros kv Hkv Heq. apply Hout. rewrite <- Heq, (loweredKeys_perm _ _ Hperm).
      by apply (list_elem_of_fmap_2 (λ kv, toLowerCase E kv.1)).
    + intros kv Hkv Heq. apply Hout. rewrite <- Heq.
      by apply (list_elem_of_fmap_2 (λ kv, toLowerCase E kv.1)).
Qed.

(** The properties the node had come out the same, in place. *)
Lemma upsertAll_perm_prefix fields fields' c c1 c2 :
  fields ≡ₚ fields' →
  NoDup (loweredKeys E fields) →
  noEmptyKey E fields →
  upsertAll E fields c = Return c1 →
  upsertAll E fields' c = Return c2 →
  take (length (cprops c)) (cprops c1) = take (length (cprops c)) (cprops c2).
Proof.
  intros Hperm Hkeys Hne Hrun1 Hrun2.
  destruct (upsertAll_names E fields c c1 Hrun1) as (extra1 & Hnames1 & Hextra1).
  destruct (upsertAll_names E fields' c c2 Hrun2) as (extra2 & Hnames2 & Hextra2).
  assert (Hpre : ∀ c' extra,
             pname <$> cprops c' = (pname <$> cprops c) ++ extra →
             pname <$> take (length (cprops c)) (cprops c') = pname <$> cprops c).
  { intros c' extra Hn. rewrite fmap_take, Hn.
    apply take_app_length'. by rewrite length_fmap. }
  assert (Hsplit : ∀ c' extra name,
             pname <$> cprops c' = (pname <$> cprops c) ++ extra →
             (∀ n, n ∈ extra → n ∉ pname <$> cprops c) →
             named name (take (length (cprops c)) (cprops c')) =
               if decide (name ∈ pname <$> cprops c) then named name (cprops c') else []).
  { intros c' extra name Hn Hnew. case_decide as Hold.
    - rewrite <- (take_drop (length (cprops c)) (cprops c')) at 2.
      rewrite (named_app name).
      rewrite (named_absent name (drop (length (cprops c)) (cprops c'))).
      + by rewrite app_nil_r.
      + rewrite fmap_drop, Hn, drop_app_length' by by rewrite length_fmap.
        intros Hin. by apply (Hnew name).
    - apply named_absent. by rewrite (Hpre c' extra Hn). }
  apply names_named_eq.
  - by rewrite (Hpre c1 extra1 Hnames1), (Hpre c2 extra2 Hnames2).
  - intros name.
    rewrite (Hsplit c1 extra1 name Hnames1), (Hsplit c2 extra2 name Hnames2).
    + case_decide; [|done]. by eapply upsertAll_perm_named.
    + intros n Hn. by apply Hextra2.
    + intros n Hn. by apply Hextra1.
Qed.

(** When every key names a property the node has, the whole node comes
    out the same. *)
Lemma upsertAll_perm_present fields fields' c c1 c2 :
  fields ≡ₚ fields' →
  NoDup (loweredKeys E fields) →
  noEmptyKey E fields →
  (∀ name, name ∈ loweredKeys E fields → name ∈ pname <$> cprops c) →
  upsertAll E fields c = Return c1 →
  upsertAll E fields' c = Return c2 →
  c1 = c2.
Proof.
  intros Hperm Hkeys Hne Hpresent Hrun1 Hrun2.
  pose proof (upsertAll_perm_prefix _ _ _ _ _ Hperm Hkeys Hne Hrun1 Hrun2) as Hprefix.
  assert (Hwhole : ∀ fields0 c',
             (∀ name, name ∈ loweredKeys E fields0 → name ∈ pname <$> cprops c) →
             upsertAll E fields0 c = Return c' →
             take (length (cprops c)) (cprops c') = cprops c').
  { intros fields0 c' Hp Hrun.
    destruct (upsertAll_names E fields0 c c' Hrun) as (extra & Hnames & Hextra).
    assert (extra = []) as ->.
    { destruct extra as [|n extra]; [done|].
      destruct (Hextra n) as [Hkey Hnew]; [left|]. by apply Hp in Hkey. }
    rewrite app_nil_r in Hnames. apply take_ge.
    by rewrite <- (length_fmap pname (cprops c')), Hnames, length_fmap. }
  rewrite (Hwhole fields c1 Hpresent Hrun1) in Hprefix.
  rewrite (Hwhole fields' c2) in Hprefix; [| |done].
  - destruct (upsertAll_frame E _ _ _ Hrun1) as [Hn1 Hs1].
    destruct (upsertAll_frame E _ _ _ Hrun2) as [Hn2 Hs2].
    destruct c1, c2. simpl in *. congruence.
  - intros name Hin. apply Hpresent. by rewrite (loweredKeys_perm _ _ Hperm).
Qed.

End Order.

(** X8.  The order of the entries.  Take a valid record and a field map
    with no two keys equal up to letter case and no key that lowercases
    to the empty string, on which the call returns, and the same entries
    in another order.  Then the call returns for the other order too; in
    both serialised trees the target holds, for every name, the same
    properties of that name, and the properties the target had before
    are the same in the same places: the order decides only where new
    properties are appended.  When every key names a property the target
    has, both calls return the same text. *)
Theorem updateFields_entry_order E c fields fields' h tree r node out :
  validRecord E (inputValue h c) tree r node →
  fields ≡ₚ fields' →
  NoDup (loweredKeys E fields) →
  noEmptyKey E fields →
  (updateFields E c fields h).1 = Return out →
  ∃ out' node1 node2,
    (updateFields E c fields' h).1 = Return out'
    ∧ out = stringify E (store tree r node1)
    ∧ out' = stringify E (store tree r node2)
    ∧ (∀ name, named name (cprops node1) = named name (cprops node2))
    ∧ take (length (cprops node)) (cprops node1) = take (length (cprops node)) (cprops node2)
    ∧ ((∀ name, name ∈ loweredKeys E fields → name ∈ pname <$> cprops node) → out' = out).
Proof.
  intros Hvalid Hperm Hkeys Hne Hrun. pose proof Hvalid as (Hv & Hparse & Htarget & Hnode).
  rewrite updateFields_run in Hrun. simpl in Hrun.
  rewrite (outcomeOn_target E _ fields tree r node Hv Hparse Htarget Hnode) in Hrun.
  rewrite updateFields_run. simpl.
  rewrite (outcomeOn_target E _ fields' tree r node Hv Hparse Htarget Hnode).
  unfold Outcome.map, Outcome.bind in Hrun |- *.
  destruct (upsertAll E fields node) as [node1|] eqn:Hrun1; [|done].
  injection Hrun as <-.
  assert (Hret : ∃ node2, upsertAll E fields' node = Return node2).
  { apply (upsertAll_returns_iff E fields' node (or_introl (noEmptyKey_perm E _ _ Hperm Hne))).
    rewrite <- Hperm. apply (upsertAll_returns_iff E fields node (or_introl Hne)). eauto. }
  destruct Hret as [node2 Hrun2]. rewrite Hrun2.
  exists (stringify E (store tree r node2)), node1, node2. split_and!; [done..| | |].
  - intros name. by eapply upsertAll_perm_named.
  - by eapply upsertAll_perm_prefix.
  - intros Hpresent.
    by rewrite (upsertAll_perm_present E fields fields' node node1 node2).
Qed.

Lemma updateFields_entry_order_witness :
  validRecord RefEngine.engine (inputValue ∅ (RawText Samples.vevent))
    Parsed.vevent (Sub 0) Parsed.event
  ∧ [("SUMMARY", "Updated"); ("LOCATION", "Remote")]
    ≡ₚ [("LOCATION", "Remote"); ("SUMMARY", "Updated")]
  ∧ NoDup (loweredKeys RefEngine.engine [("SUMMARY", "Updated"); ("LOCATION", "Remote")])
  ∧ noEmptyKey RefEngine.engine [("SUMMARY", "Updated"); ("LOCATION", "Remote")]
  ∧ (∀ name,
       name ∈ loweredKeys RefEngine.engine [("SUMMARY", "Updated"); ("LOCATION", "Remote")] →
       name ∈ pname <$> cprops Parsed.event)
  ∧ ∃ out,
      (updateFields RefEngine.engine (RawText Samples.vevent)
         [("SUMMARY", "Updated"); ("LOCATION", "Remote")] ∅).1 = Return out
      ∧ (updateFields RefEngine.engine (RawText Samples.vevent)
           [("LOCATION", "Remote"); ("SUMMARY", "Updated")] ∅).1 = Return out.
Proof.
  assert (Hvalid : validRecord RefEngine.engine (inputValue ∅ (RawText Samples.vevent))
                     Parsed.vevent (Sub 0) Parsed.event).
  { repeat split; vm_compute; reflexivity. }
  assert (Hperm : [("SUMMARY", "Updated"); ("LOCATION", "Remote")]
                  ≡ₚ [("LOCATION", "Remote"); ("SUMMARY", "Updated")]) by apply perm_swap.
  assert (Hkeys : NoDup (loweredKeys RefEngine.engine
                           [("SUMMARY", "Updated"); ("LOCATION", "Remote")])).
  { apply NoDup_cons. split; [|apply NoDup_singleton].
    intros Hin%list_elem_of_singleton. discriminate. }
  assert (Hne : noEmptyKey RefEngine.engine [("SUMMARY", "Updated"); ("LOCATION", "Remote")]).
  { intros kv Hkv.
    repeat (apply elem_of_cons in Hkv as [->|Hkv]; [discriminate|]).
    by apply elem_of_nil in Hkv. }
  assert (Hpresent : ∀ name,
             name ∈ loweredKeys RefEngine.engine
                      [("SUMMARY", "Updated"); ("LOCATION", "Remote")] →
             name ∈ pname <$> cprops Parsed.event).
  { intros name [->|[->|Hin]%elem_of_cons]%elem_of_cons.
    - do 2 right. left.
    - do 3 right. left.
    - by apply elem_of_nil in Hin. }
  split; [exact Hvalid|]. split; [exact Hperm|]. split; [exact Hkeys|]. split; [exact Hne|].
  split; [exact Hpresent|].
  assert (Hrun : ∃ out, (updateFields RefEngine.engine (RawText Samples.vevent)
                           [("SUMMARY", "Updated"); ("LOCATION", "Remote")] ∅).1
                        = Return out).
  { eexists. vm_compute. reflexivity. }
  destruct Hrun as [out Hrun]. exists out. split; [exact Hrun|].
  destruct (updateFields_entry_order RefEngine.engine (RawText Samples.vevent)
              [("SUMMARY", "Updated"); ("LOCATION", "Remote")]
              [("LOCATION", "Remote"); ("SUMMARY", "Updated")] ∅
              Parsed.vevent (Sub 0) Parsed.event out Hvalid Hperm Hkeys Hne Hrun)
    as (out' & node1 & node2 & Hrun' & _ & _ & _ & _ & Hsame).
  rewrite Hrun'. f_equal. by apply Hsame.
Defined.

(** ** Writing what is there *)

(** X9.  On a valid record, when the property the upsert of every entry
    finds on the target (the first property of the lowercased key; for
    an empty key the first property there is) already holds the entry's
    value as its only value, and the engine reads that value there, the
    call returns the serialisation of the parsed tree unchanged, as it
    does for the empty map. *)
Theorem updateFields_settled E c fields h tree r node :
  validRecord E (inputValue h c) tree r node →
  Forall (settled E node) fields →
  (updateFields E c fields h).1 = Return (stringify E tree).
Proof.
  intros (Hv & Hparse & Htarget & Hnode) Hsettled.
  rewrite updateFields_run. simpl.
  rewrite (outcomeOn_target E _ fields tree r node Hv Hparse Htarget Hnode).
  rewrite (upsertAll_settled E fields node Hsettled).
  unfold Outcome.map. simpl. by rewrite store_deref.
Qed.

Lemma updateFields_settled_witness :
  validRecord RefEngine.engine (inputValue ∅ (RawText Samples.vevent))
    Parsed.vevent (Sub 0) Parsed.event
  ∧ Forall (settled RefEngine.engine Parsed.event)
      [("Summary", "Original"); ("LOCATION", "Office")]
  ∧ (updateFields RefEngine.engine (RawText Samples.vevent)
       [("Summary", "Original"); ("LOCATION", "Office")] ∅).1
    = Return (stringify RefEngine.engine Parsed.vevent).
Proof.
  assert (Hvalid : validRecord RefEngine.engine (inputValue ∅ (RawText Samples.vevent))
                     Parsed.vevent (Sub 0) Parsed.event).
  { repeat split; vm_compute; reflexivity. }
  assert (Hsettled : Forall (settled RefEngine.engine Parsed.event)
                       [("Summary", "Original"); ("LOCATION", "Office")]).
  { repeat constructor; eexists _, _; (split_and!; [vm_compute; reflexivity|done|done]). }
  split; [exact Hvalid|]. split; [exact Hsettled|].
  exact (updateFields_settled RefEngine.engine (RawText Samples.vevent)
           [("Summary", "Original"); ("LOCATION", "Office")] ∅
           Parsed.vevent (Sub 0) Parsed.event Hvalid Hsettled).
Defined.

(** ** Parameters and types *)

(** X10.  Whenever the call returns on a valid record, every property the
    target had keeps its place, its name, its parameters and its value
    type: an update changes values only.  What follows them are new
    properties, each named by a lowercased key of the map, without
    parameters and of the engine's default type for the name. *)
Theorem updateFields_keeps_shapes E c fields h tree r node out :
  validRecord E (inputValue h c) tree r node →
  (updateFields E c fields h).1 = Return out →
  ∃ tree' node' extra,
    forEntries E fields r tree = Return tree'
    ∧ out = stringify E tree'
    ∧ deref tree' r = Some node'
    ∧ shape <$> cprops node' = (shape <$> cprops node) ++ extra
    ∧ shape <$> take (length (cprops node)) (cprops node') = shape <$> cprops node
    ∧ ∀ s, s ∈ extra →
        ∃ name, name ∈ loweredKeys E fields ∧ s = (name, [], defaultType E name).
Proof.
  intros Hvalid Hrun. pose proof Hvalid as (Hv & Hparse & Htarget & Hnode).
  rewrite updateFields_run in Hrun. simpl in Hrun. unfold outcomeOn in Hrun.
  rewrite Hv, Hparse, Htarget in Hrun.
  unfold mbind, Outcome_bind, mret, Outcome_ret in Hrun. simpl in Hrun.
  destruct (forEntries E fields r tree) as [tree'|] eqn:Hloop; [|done].
  injection Hrun as <-.
  destruct (forEntries_Return E fields r tree node tree' Htarget Hnode Hloop)
    as (node' & Hnode' & _ & Hderef & _).
  destruct (upsertAll_shapes E fields node node' Hnode') as (extra & Hshapes & Hextra).
  exists tree', node', extra. split_and!; try done.
  rewrite fmap_take, Hshapes. apply take_app_length'. by rewrite length_fmap.
Qed.

Lemma updateFields_keeps_shapes_witness :
  validRecord RefEngine.engine (inputValue ∅ (RawText Samples.vevent))
    Parsed.vevent (Sub 0) Parsed.event
  ∧ ∃ out tree' node' extra,
      (updateFields RefEngine.engine (RawText Samples.vevent) Samples.collidingAndNew ∅).1
      = Return out
      ∧ forEntries RefEngine.engine Samples.collidingAndNew (Sub 0) Parsed.vevent
        = Return tree'
      ∧ out = stringify RefEngine.engine tree'
      ∧ deref tree' (Sub 0) = Some node'
      ∧ shape <$> cprops node' = (shape <$> cprops Parsed.event) ++ extra
      ∧ shape <$> take (length (cprops Parsed.event)) (cprops node')
        = shape <$> cprops Parsed.event.
Proof.
  assert (Hvalid : validRecord RefEngine.engine (inputValue ∅ (RawText Samples.vevent))
                     Parsed.vevent (Sub 0) Parsed.event).
  { repeat split; vm_compute; reflexivity. }
  split; [exact Hvalid|].
  assert (Hrun : ∃ out, (updateFields RefEngine.engine (RawText Samples.vevent)
                           Samples.collidingAndNew ∅).1 = Return out).
  { eexists. vm_compute. reflexivity. }
  destruct Hrun as [out Hrun]. exists out.
  destruct (updateFields_keeps_shapes RefEngine.engine (RawText Samples.vevent)
              Samples.collidingAndNew ∅ Parsed.vevent (Sub 0) Parsed.event out
              Hvalid Hrun)
    as (tree' & node' & extra & Hloop & Hout & Hderef & Hshapes & Htake & _).
  exists tree', node', extra. done.
Defined.
